(** * The photo module's callback shim ([src/photo/photo_async.cpp])

    A shallow embedding of the twenty-one [*_Async] entry points of the
    computational-photography adapter, and the properties its
    specification states about them.

    Every entry point has the same shape in the source: between
    [BEGIN_WRAP] and [END_WRAP] it declares a local [cv::Mat _dst], calls
    one native routine on the dereferenced input handles, the local and
    the scalar parameters, and then runs
    [callback(new Mat{new cv::Mat(_dst)})].

    The embedding keeps what this code does to the world: it reads native
    objects through the handles it is given, calls one routine of the
    native library, allocates native objects and handle structures with
    [new], invokes the caller's function pointer, and turns a raised
    exception into the returned status.  The native library itself is an
    interface ([NativeLibrary]); nothing is assumed about what its routines
    compute. *)

From Stdlib Require Import ZArith Lia.
From stdpp Require Import base list strings.

Local Open Scope Z_scope.

(** ** Values that cross the boundary *)

(** A native address.  Addresses are indices into the [heap] below. *)
Abbreviation addr := nat.

(** A C [float], carried as its IEEE-754 binary32 bit pattern: the shim
    never computes on a float, it only passes it on. *)
Definition float := Z.

(** [struct Point { int x; int y; }], passed by value. *)
Record Point := { x : Z; y : Z }.

(** [cv::Point]. *)
Record cv_Point := { cv_x : Z; cv_y : Z }.

(** A [cv::Mat] is a header over a reference-counted pixel buffer:
    dimensions, element type, and a pointer to the buffer.  [buf] is the
    identity of the buffer the header points to and [data] the pixels in
    it.  Copy construction ([cv::Mat(const cv::Mat&)]) copies the header:
    the copy has the same [buf], that is, it shares the pixels of the
    original.  A buffer lives as long as some header points to it, which
    is what the reference count ensures. *)
Record cvMat := { rows : Z; cols : Z; mtype : Z; data : list Z; buf : nat }.

(** The algorithm objects behind [cv::Ptr<cv::MergeMertens>] and
    [cv::Ptr<cv::AlignMTB>]: the configuration the classes expose. *)
Record cvMergeMertens :=
  { contrast_weight : float; saturation_weight : float; exposure_weight : float }.

Record cvAlignMTB := { max_bits : Z; exclude_range : Z; cut : bool }.

(** The four handle structures ([Mat], [VecMat], [MergeMertens],
    [AlignMTB]) each hold exactly one field, [ptr].  They differ in the
    type of the native object the pointer refers to. *)
Inductive kind := K_cvMat | K_vecMat | K_MergeMertens | K_AlignMTB.

#[global] Instance kind_eq_dec : EqDecision kind.
Proof. solve_decision. Defined.

Record Handle (k : kind) := { ptr : addr }.
Arguments ptr {k} _.
Arguments Build_Handle {k} _.

Definition Mat := Handle K_cvMat.
Definition VecMat := Handle K_vecMat.
Definition MergeMertens := Handle K_MergeMertens.
Definition AlignMTB := Handle K_AlignMTB.

(** What lives at an address: a native object, or a handle structure
    allocated by [new Mat{...}] and its siblings. *)
Inductive object :=
| O_cvMat (m : cvMat)
| O_vecMat (v : list cvMat)
| O_MergeMertens (a : cvMergeMertens)
| O_AlignMTB (a : cvAlignMTB)
| O_Handle (k : kind) (p : addr).

(** The heap: slot [a] is [Some o] while an object is live at address [a]
    and [None] once it has been released.  [new] takes the next slot, so an
    address is never handed out twice. *)
Abbreviation heap := (list (option object)).

Definition load (h : heap) (a : addr) : option object := mjoin (h !! a).

(** Reading an address at a given native type. *)
Definition read_cvMat (h : heap) (a : addr) : option cvMat :=
  match load h a with Some (O_cvMat m) => Some m | _ => None end.

Definition read_vecMat (h : heap) (a : addr) : option (list cvMat) :=
  match load h a with Some (O_vecMat v) => Some v | _ => None end.

Definition read_MergeMertens (h : heap) (a : addr) : option cvMergeMertens :=
  match load h a with Some (O_MergeMertens m) => Some m | _ => None end.

Definition read_AlignMTB (h : heap) (a : addr) : option cvAlignMTB :=
  match load h a with Some (O_AlignMTB m) => Some m | _ => None end.

(** Two objects of the same C++ type. *)
Definition same_type (o o' : object) : bool :=
  match o, o' with
  | O_cvMat _, O_cvMat _ => true
  | O_vecMat _, O_vecMat _ => true
  | O_MergeMertens _, O_MergeMertens _ => true
  | O_AlignMTB _, O_AlignMTB _ => true
  | O_Handle k _, O_Handle k' _ => bool_decide (k = k')
  | _, _ => false
  end.

(** Pixels are shared between headers.  When a native routine leaves the
    matrix [r] in an output array, every header on the same buffer sees
    the pixels of [r]. *)
Definition with_pixels_of (r m : cvMat) : cvMat :=
  if decide (buf m = buf r)
  then {| rows := rows m; cols := cols m; mtype := mtype m;
          data := data r; buf := buf m |}
  else m.

Definition seen_through (r : cvMat) (o : object) : object :=
  match o with
  | O_cvMat m => O_cvMat (with_pixels_of r m)
  | O_vecMat v => O_vecMat (map (with_pixels_of r) v)
  | _ => o
  end.

(** The pixel buffers an object points to. *)
Definition bufs_of (o : object) : list nat :=
  match o with
  | O_cvMat m => [buf m]
  | O_vecMat v => map buf v
  | _ => []
  end.

(** ** Exceptions and the status value *)

(** What a C++ call can raise, as far as the envelope distinguishes it:
    the native library's own exception type, or anything else. *)
Inductive exn :=
| cv_Exception (what : string)
| other_exception (what : string).

Inductive failure_kind := LibraryError | InternalError.

(** [CvStatus]: the failure kind, the message and the location at which
    the failure was caught. *)
Record CvStatus :=
  { code : failure_kind; msg : string; file : string; line : Z }.

(** An entry point returns [CvStatus *]; the null pointer is the sentinel
    for success. *)
Definition Status := option CvStatus.
Definition OK : Status := None.

(** ** The native library *)

(** The routines of the native library that the shim calls, with the
    arguments in the order of the library's signatures.  Output arrays
    that the shim passes as fresh locals ([cv::Mat _dst]) appear as the
    result type.  [cv_pencilSketch] receives the caller's [dst1] and [dst2]
    as they are before the call and returns what it leaves in them; the two
    [process] methods are non-const and return the algorithm object as
    they leave it.  A routine that raises is taken to have written
    nothing.  [cv::inpaint] takes its radius as a [double]; the shim's
    [float] converts to it without loss and is carried as it is. *)
Inductive native_call : Type -> Type :=
| cv_colorChange (src mask : cvMat) (red_mul green_mul blue_mul : float)
  : native_call cvMat
| cv_seamlessClone (src dst mask : cvMat) (p : cv_Point) (flags : Z)
  : native_call cvMat
| cv_illuminationChange (src mask : cvMat) (alpha beta : float)
  : native_call cvMat
| cv_textureFlattening (src mask : cvMat) (low_threshold high_threshold : float)
    (kernel_size : Z)
  : native_call cvMat
| cv_fastNlMeansDenoisingColoredMulti (srcImgs : list cvMat)
    (imgToDenoiseIndex temporalWindowSize : Z) (h hColor : float)
    (templateWindowSize searchWindowSize : Z)
  : native_call cvMat
| cv_fastNlMeansDenoising (src : cvMat) (h : float)
    (templateWindowSize searchWindowSize : Z)
  : native_call cvMat
| cv_fastNlMeansDenoisingColored (src : cvMat) (h hColor : float)
    (templateWindowSize searchWindowSize : Z)
  : native_call cvMat
| cv_createMergeMertens (contrast saturation exposure : float)
  : native_call cvMergeMertens
| cv_MergeMertens_process (self : cvMergeMertens) (src : list cvMat)
  : native_call (cvMat * cvMergeMertens)
| cv_createAlignMTB (max_bits exclude_range : Z) (cut : bool)
  : native_call cvAlignMTB
| cv_AlignMTB_process (self : cvAlignMTB) (src dst : list cvMat)
  : native_call (list cvMat * cvAlignMTB)
| cv_detailEnhance (src : cvMat) (sigma_s sigma_r : float)
  : native_call cvMat
| cv_edgePreservingFilter (src : cvMat) (flags : Z) (sigma_s sigma_r : float)
  : native_call cvMat
| cv_pencilSketch (src dst1 dst2 : cvMat) (sigma_s sigma_r shade_factor : float)
  : native_call (cvMat * cvMat)
| cv_stylization (src : cvMat) (sigma_s sigma_r : float)
  : native_call cvMat
| cv_inpaint (src inpaintMask : cvMat) (inpaintRadius : float) (flags : Z)
  : native_call cvMat.

(** The library as the shim sees it: each routine either raises or
    returns, and the headers declare default arguments for the routines
    that the parameter-free entry points call without them.  The defaults
    of [cv::fastNlMeansDenoising] are fixed below ([h_default] and
    following); the others are whatever the library's headers declare.

    The last field is not the library's but the C++ implementation's, the
    other thing the source does not determine: whether the two argument
    expressions of a call are evaluated right to left (as g++ does) or
    left to right.  Since C++17 one argument is evaluated completely
    before the other; which one first is left open.  It matters in
    [PencilSketch_Async], whose callback arguments both allocate. *)
Class NativeLibrary := {
  exec : forall A, native_call A -> exn + A;
  colored_h : float;
  colored_hColor : float;
  colored_templateWindowSize : Z;
  colored_searchWindowSize : Z;
  multi_h : float;
  multi_hColor : float;
  multi_templateWindowSize : Z;
  multi_searchWindowSize : Z;
  mertens_contrast_weight : float;
  mertens_saturation_weight : float;
  mertens_exposure_weight : float;
  mtb_max_bits : Z;
  mtb_exclude_range : Z;
  mtb_cut : bool;
  args_right_to_left : bool
}.
Arguments exec {_ A} _.

(** Modelled from the spec: the default arguments of
    [cv::fastNlMeansDenoising], declared in the native library's headers,
    which are not part of this repository.  The specification documents
    them as h = 3, templateWindowSize = 7, searchWindowSize = 21. *)
Definition h_default : float := 0x40400000.          (* 3.0f *)
Definition templateWindowSize_default : Z := 7.
Definition searchWindowSize_default : Z := 21.

(** ** Callbacks *)

(** How a callback invocation ends: it returns, or it raises.  Either way
    it may have changed the heap (it is the caller's code). *)
Inductive cb_outcome :=
| CbReturn (h : heap)
| CbRaise (e : exn) (h : heap).

Definition cb_heap (o : cb_outcome) : heap :=
  match o with CbReturn h => h | CbRaise _ h => h end.

(** A caller-supplied function pointer.  The index is the number of
    parameters of the declared pointer type ([CvCallback_1] takes one
    [void] pointer); [cb_fun] is the function behind the pointer,
    applied to the arguments that the call site actually passes. *)
Record CvCallback (arity : nat) :=
  { cb_fun : list addr -> heap -> cb_outcome }.
Arguments cb_fun {arity} _ _ _.
Arguments Build_CvCallback {arity} _.

Abbreviation CvCallback_1 := (CvCallback 1).
Abbreviation CvCallback_2 := (CvCallback 2).

(** ** Effects *)

(** What the shim does that is visible from outside, in order. *)
Inductive event :=
| EvNative {A : Type} (n : native_call A)
| EvNew (a : addr) (o : object)
| EvCallback (declared : nat) (args : list addr).

Record state := { st_heap : heap; st_trace : list event }.

Definition log (e : event) (s : state) : state :=
  {| st_heap := st_heap s; st_trace := st_trace s ++ [e] |}.

(** A C++ computation: it completes, raises, or has undefined behaviour
    (here: dereferencing a pointer to no live object of the expected type). *)
Inductive result (A : Type) :=
| Done (a : A) (s : state)
| Raised (e : exn) (s : state)
| Undefined.
Arguments Done {A} _ _.
Arguments Raised {A} _ _.
Arguments Undefined {A}.

Definition M (A : Type) := state -> result A.

Definition ret {A} (a : A) : M A := fun s => Done a s.

Definition bind {A B} (m : M A) (f : A -> M B) : M B := fun s =>
  match m s with
  | Done a s' => f a s'
  | Raised e s' => Raised e s'
  | Undefined => Undefined
  end.

Notation "x <- m ;; k" := (bind m (fun x => k))
  (at level 100, m at next level, right associativity).
Notation "m ;; k" := (bind m (fun _ => k))
  (at level 100, right associativity).

(** Dereferencing [h.ptr], for each pointer type.  A pointer that does
    not lead to a live object of its type (null, dangling) is undefined
    behaviour: the shim tests no pointer. *)
Definition deref {A} (read : heap -> addr -> option A) (a : addr) : M A :=
  fun s =>
  match read (st_heap s) a with
  | Some v => Done v s
  | None => Undefined
  end.

Definition deref_Mat (h : Mat) : M cvMat := deref read_cvMat (ptr h).
Definition deref_VecMat (h : VecMat) : M (list cvMat) := deref read_vecMat (ptr h).
Definition deref_MergeMertens (h : MergeMertens) : M cvMergeMertens :=
  deref read_MergeMertens (ptr h).
Definition deref_AlignMTB (h : AlignMTB) : M cvAlignMTB :=
  deref read_AlignMTB (ptr h).

(** A native routine writing through a reference to a live object. *)
Definition store (a : addr) (o : object) : M unit := fun s =>
  Done tt {| st_heap := <[a := Some o]> (st_heap s); st_trace := st_trace s |}.

(** A native routine leaving the matrix [r] in the output array at [a]:
    the header at [a] becomes [r], and the pixels of [r] are seen through
    every other header on the same buffer. *)
Definition written (a : addr) (r : cvMat) (h : heap) : heap :=
  <[a := Some (O_cvMat r)]>
    ((fun o : option object => seen_through r <$> o) <$> h).

Definition write_Mat (a : addr) (r : cvMat) : M unit := fun s =>
  Done tt {| st_heap := written a r (st_heap s); st_trace := st_trace s |}.

(** [new T{...}]: the object is placed at the next free address.
    Exhaustion of memory is not represented. *)
Definition new (o : object) : M addr := fun s =>
  let a := length (st_heap s) in
  Done a {| st_heap := st_heap s ++ [Some o];
            st_trace := st_trace s ++ [EvNew a o] |}.

(** A call into the native library. *)
Definition native `{NativeLibrary} {A} (n : native_call A) : M A := fun s =>
  match exec n with
  | inl e => Raised e (log (EvNative n) s)
  | inr a => Done a (log (EvNative n) s)
  end.

(** [callback(args...)]. *)
Definition invoke {arity} (callback : CvCallback arity) (args : list addr)
  : M unit := fun s =>
  let s0 := log (EvCallback arity args) s in
  match cb_fun callback args (st_heap s0) with
  | CbReturn h => Done tt {| st_heap := h; st_trace := st_trace s0 |}
  | CbRaise e h => Raised e {| st_heap := h; st_trace := st_trace s0 |}
  end.

(** ** The envelope *)

(** How a call of an entry point ends: it returns a status, or it never
    gets there (undefined behaviour). *)
Inductive outcome :=
| Returned (st : Status) (s : state)
| Crash.

(** [__FILE__] at the catch sites. *)
Definition this_file : string := "photo_async.cpp".

(** Modelled from the spec: [BEGIN_WRAP] and [END_WRAP] are macros of
    [core/types.h], which is not among the sources.  The specification
    describes them: the body runs inside an exception-trapping envelope;
    when it completes, the null status is returned; an exception of the
    native library becomes a [LibraryError] status with the library's
    message, any other one a status of the generic kind, both with the file
    and line of the catch site. *)
Definition status_of_exn (catch_line : Z) (e : exn) : CvStatus :=
  match e with
  | cv_Exception what =>
      {| code := LibraryError; msg := what; file := this_file; line := catch_line |}
  | other_exception what =>
      {| code := InternalError; msg := what; file := this_file; line := catch_line |}
  end.

Definition WRAP (catch_line : Z) (body : M unit) : state -> outcome := fun s =>
  match body s with
  | Done _ s' => Returned OK s'
  | Raised e s' => Returned (Some (status_of_exn catch_line e)) s'
  | Undefined => Crash
  end.

Notation "'BEGIN_WRAP' body 'END_WRAP' l" := (WRAP l body)
  (at level 10, body at level 200, l at level 0, only parsing).

(** ** The entry points

    One definition per function of [photo_async.cpp], in the order of the
    file.  The number after [END_WRAP] is the source line of the macro,
    which is where the [catch] clauses are. *)

Section EntryPoints.
Context `{NativeLibrary}.

Definition ColorChange_Async (src mask : Mat) (red_mul green_mul blue_mul : float)
    (callback : CvCallback_1) : state -> outcome :=
  BEGIN_WRAP
    s <- deref_Mat src ;;
    m <- deref_Mat mask ;;
    _dst <- native (cv_colorChange s m red_mul green_mul blue_mul) ;;
    p <- new (O_cvMat _dst) ;;
    r <- new (O_Handle K_cvMat p) ;;
    invoke callback [r]
  END_WRAP 11.

Definition SeamlessClone_Async (src dst mask : Mat) (p : Point) (flags : Z)
    (callback : CvCallback_1) : state -> outcome :=
  BEGIN_WRAP
    s <- deref_Mat src ;;
    d <- deref_Mat dst ;;
    m <- deref_Mat mask ;;
    _blend <- native (cv_seamlessClone s d m
                        {| cv_x := x p; cv_y := y p |} flags) ;;
    q <- new (O_cvMat _blend) ;;
    r <- new (O_Handle K_cvMat q) ;;
    invoke callback [r]
  END_WRAP 20.

Definition IlluminationChange_Async (src mask : Mat) (alpha beta : float)
    (callback : CvCallback_1) : state -> outcome :=
  BEGIN_WRAP
    s <- deref_Mat src ;;
    m <- deref_Mat mask ;;
    _dst <- native (cv_illuminationChange s m alpha beta) ;;
    p <- new (O_cvMat _dst) ;;
    r <- new (O_Handle K_cvMat p) ;;
    invoke callback [r]
  END_WRAP 29.

Definition TextureFlattening_Async (src mask : Mat)
    (low_threshold high_threshold : float) (kernel_size : Z)
    (callback : CvCallback_1) : state -> outcome :=
  BEGIN_WRAP
    s <- deref_Mat src ;;
    m <- deref_Mat mask ;;
    _dst <- native (cv_textureFlattening s m low_threshold high_threshold
                      kernel_size) ;;
    p <- new (O_cvMat _dst) ;;
    r <- new (O_Handle K_cvMat p) ;;
    invoke callback [r]
  END_WRAP 38.

Definition FastNlMeansDenoisingColoredMulti_Async (src : VecMat)
    (imgToDenoiseIndex temporalWindowSize : Z)
    (callback : CvCallback_1) : state -> outcome :=
  BEGIN_WRAP
    v <- deref_VecMat src ;;
    _dst <- native (cv_fastNlMeansDenoisingColoredMulti v imgToDenoiseIndex
                      temporalWindowSize multi_h multi_hColor
                      multi_templateWindowSize multi_searchWindowSize) ;;
    p <- new (O_cvMat _dst) ;;
    r <- new (O_Handle K_cvMat p) ;;
    invoke callback [r]
  END_WRAP 47.

Definition FastNlMeansDenoisingColoredMultiWithParams_Async (src : VecMat)
    (imgToDenoiseIndex temporalWindowSize : Z) (h hColor : float)
    (templateWindowSize searchWindowSize : Z)
    (callback : CvCallback_1) : state -> outcome :=
  BEGIN_WRAP
    v <- deref_VecMat src ;;
    _dst <- native (cv_fastNlMeansDenoisingColoredMulti v imgToDenoiseIndex
                      temporalWindowSize h hColor templateWindowSize
                      searchWindowSize) ;;
    p <- new (O_cvMat _dst) ;;
    r <- new (O_Handle K_cvMat p) ;;
    invoke callback [r]
  END_WRAP 55.

Definition FastNlMeansDenoising_Async (src : Mat)
    (callback : CvCallback_1) : state -> outcome :=
  BEGIN_WRAP
    s <- deref_Mat src ;;
    _dst <- native (cv_fastNlMeansDenoising s h_default
                      templateWindowSize_default searchWindowSize_default) ;;
    p <- new (O_cvMat _dst) ;;
    r <- new (O_Handle K_cvMat p) ;;
    invoke callback [r]
  END_WRAP 64.

Definition FastNlMeansDenoisingWithParams_Async (src : Mat) (h : float)
    (templateWindowSize searchWindowSize : Z)
    (callback : CvCallback_1) : state -> outcome :=
  BEGIN_WRAP
    s <- deref_Mat src ;;
    _dst <- native (cv_fastNlMeansDenoising s h templateWindowSize
                      searchWindowSize) ;;
    p <- new (O_cvMat _dst) ;;
    r <- new (O_Handle K_cvMat p) ;;
    invoke callback [r]
  END_WRAP 72.

Definition FastNlMeansDenoisingColored_Async (src : Mat)
    (callback : CvCallback_1) : state -> outcome :=
  BEGIN_WRAP
    s <- deref_Mat src ;;
    _dst <- native (cv_fastNlMeansDenoisingColored s colored_h colored_hColor
                      colored_templateWindowSize colored_searchWindowSize) ;;
    p <- new (O_cvMat _dst) ;;
    r <- new (O_Handle K_cvMat p) ;;
    invoke callback [r]
  END_WRAP 81.

Definition FastNlMeansDenoisingColoredWithParams_Async (src : Mat)
    (h hColor : float) (templateWindowSize searchWindowSize : Z)
    (callback : CvCallback_1) : state -> outcome :=
  BEGIN_WRAP
    s <- deref_Mat src ;;
    _dst <- native (cv_fastNlMeansDenoisingColored s h hColor
                      templateWindowSize searchWindowSize) ;;
    p <- new (O_cvMat _dst) ;;
    r <- new (O_Handle K_cvMat p) ;;
    invoke callback [r]
  END_WRAP 89.

Definition MergeMertens_Create_Async (callback : CvCallback_1)
  : state -> outcome :=
  BEGIN_WRAP
    a <- native (cv_createMergeMertens mertens_contrast_weight
                   mertens_saturation_weight mertens_exposure_weight) ;;
    p <- new (O_MergeMertens a) ;;
    r <- new (O_Handle K_MergeMertens p) ;;
    invoke callback [r]
  END_WRAP 96.

Definition MergeMertens_CreateWithParams_Async
    (contrast_weight saturation_weight exposure_weight : float)
    (callback : CvCallback_1) : state -> outcome :=
  BEGIN_WRAP
    a <- native (cv_createMergeMertens contrast_weight saturation_weight
                   exposure_weight) ;;
    p <- new (O_MergeMertens a) ;;
    r <- new (O_Handle K_MergeMertens p) ;;
    invoke callback [r]
  END_WRAP 102.

Definition MergeMertens_Process_Async (b : MergeMertens) (src : VecMat)
    (callback : CvCallback_1) : state -> outcome :=
  BEGIN_WRAP
    self <- deref_MergeMertens b ;;
    v <- deref_VecMat src ;;
    out <- native (cv_MergeMertens_process self v) ;;
    store (ptr b) (O_MergeMertens (snd out)) ;;
    p <- new (O_cvMat (fst out)) ;;
    r <- new (O_Handle K_cvMat p) ;;
    invoke callback [r]
  END_WRAP 110.

Definition AlignMTB_Create_Async (callback : CvCallback_1)
  : state -> outcome :=
  BEGIN_WRAP
    a <- native (cv_createAlignMTB mtb_max_bits mtb_exclude_range mtb_cut) ;;
    p <- new (O_AlignMTB a) ;;
    r <- new (O_Handle K_AlignMTB p) ;;
    invoke callback [r]
  END_WRAP 117.

Definition AlignMTB_CreateWithParams_Async (max_bits exclude_range : Z)
    (cut : bool) (callback : CvCallback_1) : state -> outcome :=
  BEGIN_WRAP
    a <- native (cv_createAlignMTB max_bits exclude_range cut) ;;
    p <- new (O_AlignMTB a) ;;
    r <- new (O_Handle K_AlignMTB p) ;;
    invoke callback [r]
  END_WRAP 123.

Definition AlignMTB_Process_Async (b : AlignMTB) (src : VecMat)
    (callback : CvCallback_1) : state -> outcome :=
  BEGIN_WRAP
    self <- deref_AlignMTB b ;;
    v <- deref_VecMat src ;;
    out <- native (cv_AlignMTB_process self v []) ;;
    store (ptr b) (O_AlignMTB (snd out)) ;;
    p <- new (O_vecMat (fst out)) ;;
    r <- new (O_Handle K_vecMat p) ;;
    invoke callback [r]
  END_WRAP 131.

Definition DetailEnhance_Async (src : Mat) (sigma_s sigma_r : float)
    (callback : CvCallback_1) : state -> outcome :=
  BEGIN_WRAP
    s <- deref_Mat src ;;
    _dst <- native (cv_detailEnhance s sigma_s sigma_r) ;;
    p <- new (O_cvMat _dst) ;;
    r <- new (O_Handle K_cvMat p) ;;
    invoke callback [r]
  END_WRAP 140.

Definition EdgePreservingFilter_Async (src : Mat) (filter : Z)
    (sigma_s sigma_r : float) (callback : CvCallback_1) : state -> outcome :=
  BEGIN_WRAP
    s <- deref_Mat src ;;
    _dst <- native (cv_edgePreservingFilter s filter sigma_s sigma_r) ;;
    p <- new (O_cvMat _dst) ;;
    r <- new (O_Handle K_cvMat p) ;;
    invoke callback [r]
  END_WRAP 149.

(** One argument of the callback in [PencilSketch_Async]: a new header
    copy-constructed from the caller's matrix, and a new handle structure
    around it. *)
Definition copy_out (dst : Mat) : M addr :=
  c <- deref_Mat dst ;;
  p <- new (O_cvMat c) ;;
  new (O_Handle K_cvMat p).

(** [callback] is declared [CvCallback_1] and is called with two
    arguments; the model takes the statement as it is written and passes
    both.  The first argument is the copy of [dst1] and the second the copy
    of [dst2]; which of the two is made first is the implementation's
    choice. *)
Definition PencilSketch_Async (src dst1 dst2 : Mat)
    (sigma_s sigma_r shade_factor : float)
    (callback : CvCallback_1) : state -> outcome :=
  BEGIN_WRAP
    s <- deref_Mat src ;;
    d1 <- deref_Mat dst1 ;;
    d2 <- deref_Mat dst2 ;;
    out <- native (cv_pencilSketch s d1 d2 sigma_s sigma_r shade_factor) ;;
    write_Mat (ptr dst1) (fst out) ;;
    write_Mat (ptr dst2) (snd out) ;;
    rs <- (if args_right_to_left
           then r2 <- copy_out dst2 ;; r1 <- copy_out dst1 ;; ret (r1, r2)
           else r1 <- copy_out dst1 ;; r2 <- copy_out dst2 ;; ret (r1, r2)) ;;
    invoke callback [fst rs; snd rs]
  END_WRAP 157.

Definition Stylization_Async (src : Mat) (sigma_s sigma_r : float)
    (callback : CvCallback_1) : state -> outcome :=
  BEGIN_WRAP
    s <- deref_Mat src ;;
    _dst <- native (cv_stylization s sigma_s sigma_r) ;;
    p <- new (O_cvMat _dst) ;;
    r <- new (O_Handle K_cvMat p) ;;
    invoke callback [r]
  END_WRAP 166.

Definition PhotoInpaint_Async (src mask : Mat) (inpaint_radius : float)
    (algorithm_type : Z) (callback : CvCallback_1) : state -> outcome :=
  BEGIN_WRAP
    s <- deref_Mat src ;;
    m <- deref_Mat mask ;;
    _dst <- native (cv_inpaint s m inpaint_radius algorithm_type) ;;
    p <- new (O_cvMat _dst) ;;
    r <- new (O_Handle K_cvMat p) ;;
    invoke callback [r]
  END_WRAP 175.

End EntryPoints.

(** ** Calls, as data

    A call of the shim: which entry point, with which arguments.  [run]
    dispatches to the definitions above, so a statement about every call
    is a statement about every entry point and every input. *)
Inductive call :=
| ColorChange (src mask : Mat) (red_mul green_mul blue_mul : float)
| SeamlessClone (src dst mask : Mat) (p : Point) (flags : Z)
| IlluminationChange (src mask : Mat) (alpha beta : float)
| TextureFlattening (src mask : Mat) (low_threshold high_threshold : float)
    (kernel_size : Z)
| FastNlMeansDenoisingColoredMulti (src : VecMat)
    (imgToDenoiseIndex temporalWindowSize : Z)
| FastNlMeansDenoisingColoredMultiWithParams (src : VecMat)
    (imgToDenoiseIndex temporalWindowSize : Z) (h hColor : float)
    (templateWindowSize searchWindowSize : Z)
| FastNlMeansDenoising (src : Mat)
| FastNlMeansDenoisingWithParams (src : Mat) (h : float)
    (templateWindowSize searchWindowSize : Z)
| FastNlMeansDenoisingColored (src : Mat)
| FastNlMeansDenoisingColoredWithParams (src : Mat) (h hColor : float)
    (templateWindowSize searchWindowSize : Z)
| MergeMertens_Create
| MergeMertens_CreateWithParams
    (contrast_weight saturation_weight exposure_weight : float)
| MergeMertens_Process (b : MergeMertens) (src : VecMat)
| AlignMTB_Create
| AlignMTB_CreateWithParams (max_bits exclude_range : Z) (cut : bool)
| AlignMTB_Process (b : AlignMTB) (src : VecMat)
| DetailEnhance (src : Mat) (sigma_s sigma_r : float)
| EdgePreservingFilter (src : Mat) (filter : Z) (sigma_s sigma_r : float)
| PencilSketch (src dst1 dst2 : Mat) (sigma_s sigma_r shade_factor : float)
| Stylization (src : Mat) (sigma_s sigma_r : float)
| PhotoInpaint (src mask : Mat) (inpaint_radius : float) (algorithm_type : Z).

Definition run `{NativeLibrary} (c : call) (callback : CvCallback_1)
  : state -> outcome :=
  match c with
  | ColorChange src mask r g b => ColorChange_Async src mask r g b callback
  | SeamlessClone src dst mask p flags =>
      SeamlessClone_Async src dst mask p flags callback
  | IlluminationChange src mask a b =>
      IlluminationChange_Async src mask a b callback
  | TextureFlattening src mask lo hi k =>
      TextureFlattening_Async src mask lo hi k callback
  | FastNlMeansDenoisingColoredMulti src i t =>
      FastNlMeansDenoisingColoredMulti_Async src i t callback
  | FastNlMeansDenoisingColoredMultiWithParams src i t h hc tw sw =>
      FastNlMeansDenoisingColoredMultiWithParams_Async src i t h hc tw sw callback
  | FastNlMeansDenoising src => FastNlMeansDenoising_Async src callback
  | FastNlMeansDenoisingWithParams src h tw sw =>
      FastNlMeansDenoisingWithParams_Async src h tw sw callback
  | FastNlMeansDenoisingColored src =>
      FastNlMeansDenoisingColored_Async src callback
  | FastNlMeansDenoisingColoredWithParams src h hc tw sw =>
      FastNlMeansDenoisingColoredWithParams_Async src h hc tw sw callback
  | MergeMertens_Create => MergeMertens_Create_Async callback
  | MergeMertens_CreateWithParams cw sw ew =>
      MergeMertens_CreateWithParams_Async cw sw ew callback
  | MergeMertens_Process b src => MergeMertens_Process_Async b src callback
  | AlignMTB_Create => AlignMTB_Create_Async callback
  | AlignMTB_CreateWithParams mb er ct =>
      AlignMTB_CreateWithParams_Async mb er ct callback
  | AlignMTB_Process b src => AlignMTB_Process_Async b src callback
  | DetailEnhance src ss sr => DetailEnhance_Async src ss sr callback
  | EdgePreservingFilter src f ss sr =>
      EdgePreservingFilter_Async src f ss sr callback
  | PencilSketch src dst1 dst2 ss sr sf =>
      PencilSketch_Async src dst1 dst2 ss sr sf callback
  | Stylization src ss sr => Stylization_Async src ss sr callback
  | PhotoInpaint src mask rad alg => PhotoInpaint_Async src mask rad alg callback
  end.

(** The source line of the entry point's [END_WRAP]. *)
Definition catch_line (c : call) : Z :=
  match c with
  | ColorChange _ _ _ _ _ => 11
  | SeamlessClone _ _ _ _ _ => 20
  | IlluminationChange _ _ _ _ => 29
  | TextureFlattening _ _ _ _ _ => 38
  | FastNlMeansDenoisingColoredMulti _ _ _ => 47
  | FastNlMeansDenoisingColoredMultiWithParams _ _ _ _ _ _ _ => 55
  | FastNlMeansDenoising _ => 64
  | FastNlMeansDenoisingWithParams _ _ _ _ => 72
  | FastNlMeansDenoisingColored _ => 81
  | FastNlMeansDenoisingColoredWithParams _ _ _ _ _ => 89
  | MergeMertens_Create => 96
  | MergeMertens_CreateWithParams _ _ _ => 102
  | MergeMertens_Process _ _ => 110
  | AlignMTB_Create => 117
  | AlignMTB_CreateWithParams _ _ _ => 123
  | AlignMTB_Process _ _ => 131
  | DetailEnhance _ _ _ => 140
  | EdgePreservingFilter _ _ _ _ => 149
  | PencilSketch _ _ _ _ _ _ => 157
  | Stylization _ _ _ => 166
  | PhotoInpaint _ _ _ _ => 175
  end.

(** The addresses a call borrows: the [ptr] of each input handle. *)
Definition input_ptrs (c : call) : list addr :=
  match c with
  | ColorChange src mask _ _ _ => [ptr src; ptr mask]
  | SeamlessClone src dst mask _ _ => [ptr src; ptr dst; ptr mask]
  | IlluminationChange src mask _ _ => [ptr src; ptr mask]
  | TextureFlattening src mask _ _ _ => [ptr src; ptr mask]
  | FastNlMeansDenoisingColoredMulti src _ _ => [ptr src]
  | FastNlMeansDenoisingColoredMultiWithParams src _ _ _ _ _ _ => [ptr src]
  | FastNlMeansDenoising src => [ptr src]
  | FastNlMeansDenoisingWithParams src _ _ _ => [ptr src]
  | FastNlMeansDenoisingColored src => [ptr src]
  | FastNlMeansDenoisingColoredWithParams src _ _ _ _ => [ptr src]
  | MergeMertens_Create => []
  | MergeMertens_CreateWithParams _ _ _ => []
  | MergeMertens_Process b src => [ptr b; ptr src]
  | AlignMTB_Create => []
  | AlignMTB_CreateWithParams _ _ _ => []
  | AlignMTB_Process b src => [ptr b; ptr src]
  | DetailEnhance src _ _ => [ptr src]
  | EdgePreservingFilter src _ _ _ => [ptr src]
  | PencilSketch src dst1 dst2 _ _ _ => [ptr src; ptr dst1; ptr dst2]
  | Stylization src _ _ => [ptr src]
  | PhotoInpaint src mask _ _ => [ptr src; ptr mask]
  end.

(** The borrowed addresses that the native routine writes through: the
    output arrays of [cv::pencilSketch] and the receiver of [process]. *)
Definition written_ptrs (c : call) : list addr :=
  match c with
  | MergeMertens_Process b _ => [ptr b]
  | AlignMTB_Process b _ => [ptr b]
  | PencilSketch _ dst1 dst2 _ _ _ => [ptr dst1; ptr dst2]
  | _ => []
  end.

(** ** What the specification says is forwarded

    Written from the specification's table of operations (section 4.2) and
    its rule for inputs: "handle fields are dereferenced to native objects
    and passed to the corresponding native routine; scalar parameters are
    forwarded unchanged", with the native routine's documented parameter
    order.  [None] when some handle does not lead to an object of its
    type. *)
Definition native_req := { A : Type & native_call A }.

Definition req {A} (n : native_call A) : native_req := existT A n.

Definition forwarded `{NativeLibrary} (c : call) (h : heap) : option native_req :=
  match c with
  | ColorChange src mask r g b =>
      s ← read_cvMat h (ptr src); m ← read_cvMat h (ptr mask);
      Some (req (cv_colorChange s m r g b))
  | SeamlessClone src dst mask p flags =>
      s ← read_cvMat h (ptr src); d ← read_cvMat h (ptr dst);
      m ← read_cvMat h (ptr mask);
      Some (req (cv_seamlessClone s d m {| cv_x := x p; cv_y := y p |} flags))
  | IlluminationChange src mask a b =>
      s ← read_cvMat h (ptr src); m ← read_cvMat h (ptr mask);
      Some (req (cv_illuminationChange s m a b))
  | TextureFlattening src mask lo hi k =>
      s ← read_cvMat h (ptr src); m ← read_cvMat h (ptr mask);
      Some (req (cv_textureFlattening s m lo hi k))
  | FastNlMeansDenoisingColoredMulti src i t =>
      v ← read_vecMat h (ptr src);
      Some (req (cv_fastNlMeansDenoisingColoredMulti v i t multi_h multi_hColor
                   multi_templateWindowSize multi_searchWindowSize))
  | FastNlMeansDenoisingColoredMultiWithParams src i t hh hc tw sw =>
      v ← read_vecMat h (ptr src);
      Some (req (cv_fastNlMeansDenoisingColoredMulti v i t hh hc tw sw))
  | FastNlMeansDenoising src =>
      s ← read_cvMat h (ptr src);
      Some (req (cv_fastNlMeansDenoising s h_default templateWindowSize_default
                   searchWindowSize_default))
  | FastNlMeansDenoisingWithParams src hh tw sw =>
      s ← read_cvMat h (ptr src);
      Some (req (cv_fastNlMeansDenoising s hh tw sw))
  | FastNlMeansDenoisingColored src =>
      s ← read_cvMat h (ptr src);
      Some (req (cv_fastNlMeansDenoisingColored s colored_h colored_hColor
                   colored_templateWindowSize colored_searchWindowSize))
  | FastNlMeansDenoisingColoredWithParams src hh hc tw sw =>
      s ← read_cvMat h (ptr src);
      Some (req (cv_fastNlMeansDenoisingColored s hh hc tw sw))
  | MergeMertens_Create =>
      Some (req (cv_createMergeMertens mertens_contrast_weight
                   mertens_saturation_weight mertens_exposure_weight))
  | MergeMertens_CreateWithParams cw sw ew =>
      Some (req (cv_createMergeMertens cw sw ew))
  | MergeMertens_Process b src =>
      a ← read_MergeMertens h (ptr b); v ← read_vecMat h (ptr src);
      Some (req (cv_MergeMertens_process a v))
  | AlignMTB_Create =>
      Some (req (cv_createAlignMTB mtb_max_bits mtb_exclude_range mtb_cut))
  | AlignMTB_CreateWithParams mb er ct =>
      Some (req (cv_createAlignMTB mb er ct))
  | AlignMTB_Process b src =>
      a ← read_AlignMTB h (ptr b); v ← read_vecMat h (ptr src);
      Some (req (cv_AlignMTB_process a v []))
  | DetailEnhance src ss sr =>
      s ← read_cvMat h (ptr src);
      Some (req (cv_detailEnhance s ss sr))
  | EdgePreservingFilter src f ss sr =>
      s ← read_cvMat h (ptr src);
      Some (req (cv_edgePreservingFilter s f ss sr))
  | PencilSketch src dst1 dst2 ss sr sf =>
      s ← read_cvMat h (ptr src); d1 ← read_cvMat h (ptr dst1);
      d2 ← read_cvMat h (ptr dst2);
      Some (req (cv_pencilSketch s d1 d2 ss sr sf))
  | Stylization src ss sr =>
      s ← read_cvMat h (ptr src);
      Some (req (cv_stylization s ss sr))
  | PhotoInpaint src mask rad alg =>
      s ← read_cvMat h (ptr src); m ← read_cvMat h (ptr mask);
      Some (req (cv_inpaint s m rad alg))
  end.

(** A call is well formed in a heap when each of its handles leads to a
    live native object of the handle's type. *)
Definition valid_call `{NativeLibrary} (c : call) (h : heap) : Prop :=
  is_Some (forwarded c h).

(** What the native routine of a request raises, if it does. *)
Definition raised_by `{NativeLibrary} (r : native_req) : option exn :=
  match exec (projT2 r) with
  | inl e => Some e
  | inr _ => None
  end.

(** ** Observing a call *)

Definition callback_events (tr : list event) : list (nat * list addr) :=
  omap (fun e => match e with EvCallback n a => Some (n, a) | _ => None end) tr.

Definition new_events (tr : list event) : list (addr * object) :=
  omap (fun e => match e with EvNew a o => Some (a, o) | _ => None end) tr.

Definition native_events (tr : list event) : list native_req :=
  omap (fun e => match e with EvNative n => Some (req n) | _ => None end) tr.

(** The events of a call that started in [s] and ended in [s']. *)
Definition since (s s' : state) : list event :=
  drop (length (st_trace s)) (st_trace s').

(** How often the callback was invoked during the call. *)
Definition invocations (s s' : state) : nat :=
  length (callback_events (since s s')).

(** The handles that the call handed to the callback. *)
Definition delivered (s s' : state) : list addr :=
  concat (map snd (callback_events (since s s'))).

(** The native objects (not the handle structures) that the call created,
    in order: the contents of the outputs. *)
Definition is_native (o : object) : bool :=
  match o with O_Handle _ _ => false | _ => true end.

Definition outputs (s s' : state) : list object :=
  filter (fun o => is_native o = true) (map snd (new_events (since s s'))).

Definition ev_new (p : addr * object) : event := EvNew (fst p) (snd p).

(** Whether an object is of the native type that a handle of kind [k]
    points to. *)
Definition has_kind (k : kind) (o : object) : bool :=
  match k, o with
  | K_cvMat, O_cvMat _ => true
  | K_vecMat, O_vecMat _ => true
  | K_MergeMertens, O_MergeMertens _ => true
  | K_AlignMTB, O_AlignMTB _ => true
  | _, _ => false
  end.

(** The number of output handles of an operation, from the last column
    of the specification's table. *)
Definition output_count (c : call) : nat :=
  match c with
  | PencilSketch _ _ _ _ _ _ => 2
  | _ => 1
  end.

(** Modelled from the spec: the release entry points of the handle layer
    are specified separately and are not among the sources.  According to
    the specification a handle owns the native object its field refers to,
    and releasing the handle destroys both.  For a matrix the object is
    the header: its pixel buffer is reference counted and lives as long as
    some header refers to it, so the headers that share it keep their
    pixels.  Releasing what is not a live handle to a live object of its
    type is undefined ([None]). *)
Definition release (r : addr) (h : heap) : option heap :=
  match load h r with
  | Some (O_Handle k p) =>
      match load h p with
      | Some o =>
          if has_kind k o then Some (<[r := None]> (<[p := None]> h)) else None
      | None => None
      end
  | _ => None
  end.

(** What a callback may be assumed to do by a caller that keeps the shim's
    invariants: it leaves every live object as it is (it may allocate). *)
Definition cb_keeps {n} (cb : CvCallback n) : Prop :=
  forall args (h : heap) (a : addr) (o : object),
    h !! a = Some (Some o) -> cb_heap (cb_fun cb args h) !! a = Some (Some o).

(** A callback that returns normally on every invocation. *)
Definition cb_returns {n} (cb : CvCallback n) : Prop :=
  forall args h, exists h', cb_fun cb args h = CbReturn h'.

(** ** Paired forms

    The operations that exist both without parameters and as
    [...WithParams], and how the specification relates them: the
    parameter-free form against the parameterised form at the library's
    documented defaults. *)
Inductive paired :=
| P_FastNlMeansDenoising (src : Mat)
| P_FastNlMeansDenoisingColored (src : Mat)
| P_FastNlMeansDenoisingColoredMulti (src : VecMat)
    (imgToDenoiseIndex temporalWindowSize : Z)
| P_MergeMertens_Create
| P_AlignMTB_Create.

Definition parameter_free (p : paired) : call :=
  match p with
  | P_FastNlMeansDenoising src => FastNlMeansDenoising src
  | P_FastNlMeansDenoisingColored src => FastNlMeansDenoisingColored src
  | P_FastNlMeansDenoisingColoredMulti src i t =>
      FastNlMeansDenoisingColoredMulti src i t
  | P_MergeMertens_Create => MergeMertens_Create
  | P_AlignMTB_Create => AlignMTB_Create
  end.

Definition with_defaults `{NativeLibrary} (p : paired) : call :=
  match p with
  | P_FastNlMeansDenoising src =>
      FastNlMeansDenoisingWithParams src 0x40400000 7 21
  | P_FastNlMeansDenoisingColored src =>
      FastNlMeansDenoisingColoredWithParams src colored_h colored_hColor
        colored_templateWindowSize colored_searchWindowSize
  | P_FastNlMeansDenoisingColoredMulti src i t =>
      FastNlMeansDenoisingColoredMultiWithParams src i t multi_h multi_hColor
        multi_templateWindowSize multi_searchWindowSize
  | P_MergeMertens_Create =>
      MergeMertens_CreateWithParams mertens_contrast_weight
        mertens_saturation_weight mertens_exposure_weight
  | P_AlignMTB_Create =>
      AlignMTB_CreateWithParams mtb_max_bits mtb_exclude_range mtb_cut
  end.

(** A status without the line of its catch site, which differs between
    any two entry points. *)
Definition status_sans_line (st : Status) : option (failure_kind * string * string) :=
  match st with
  | None => None
  | Some f => Some (code f, msg f, file f)
  end.

(** Two calls with the same observable result: the same status (up to
    the catch line), the same heap with the same outputs in it, the same
    events. *)
Definition same_result (o1 o2 : outcome) : Prop :=
  match o1, o2 with
  | Returned st1 s1, Returned st2 s2 =>
      status_sans_line st1 = status_sans_line st2 /\ s1 = s2
  | Crash, Crash => True
  | _, _ => False
  end.

(** ** A small native library, for running the shim

    Enough of a library to run every entry point: the filters return their
    source, [seamlessClone] insists on a mask of the size of the source (as
    the real routine does), the multi-frame denoiser on an index in range,
    fusion on a non-empty sequence; the pencil sketch writes into the
    output arrays it is given.  Arguments are evaluated right to left. *)
Definition size_error : exn := cv_Exception "size mismatch".
Definition index_error : exn := cv_Exception "index out of range".
Definition empty_error : exn := cv_Exception "empty sequence".

(** An output array is given the shape asked for: its buffer is kept and
    written over when it has that shape already, and replaced by a new one
    otherwise. *)
Definition toy_create (r c t : Z) (d : list Z) (fresh : nat) (m : cvMat) : cvMat :=
  {| rows := r; cols := c; mtype := t; data := d;
     buf := if (rows m =? r) && (cols m =? c) && (mtype m =? t)
            then buf m else fresh |}.

Definition toy_exec (A : Type) (n : native_call A) : exn + A :=
  match n in native_call T return exn + T with
  | cv_colorChange src _ _ _ _ => inr src
  | cv_seamlessClone src dst mask _ _ =>
      if (rows mask =? rows src) && (cols mask =? cols src)
      then inr dst else inl size_error
  | cv_illuminationChange src _ _ _ => inr src
  | cv_textureFlattening src _ _ _ _ => inr src
  | cv_fastNlMeansDenoisingColoredMulti imgs i _ _ _ _ _ =>
      if i <? 0 then inl index_error
      else match imgs !! Z.to_nat i with
           | Some m => inr m
           | None => inl index_error
           end
  | cv_fastNlMeansDenoising src _ _ _ => inr src
  | cv_fastNlMeansDenoisingColored src _ _ _ _ => inr src
  | cv_createMergeMertens c s e =>
      inr {| contrast_weight := c; saturation_weight := s; exposure_weight := e |}
  | cv_MergeMertens_process self imgs =>
      match imgs with
      | m :: _ => inr (m, self)
      | [] => inl empty_error
      end
  | cv_createAlignMTB mb er ct =>
      inr {| max_bits := mb; exclude_range := er; cut := ct |}
  | cv_AlignMTB_process self imgs _ => inr (imgs, self)
  | cv_detailEnhance src _ _ => inr src
  | cv_edgePreservingFilter src _ _ _ => inr src
  | cv_pencilSketch src dst1 dst2 _ _ _ =>
      let fresh := S (Nat.max (buf src) (Nat.max (buf dst1) (buf dst2))) in
      inr (toy_create (rows src) (cols src) 0 (data src) fresh dst1,
           toy_create (rows src) (cols src) (mtype src) (data src) (S fresh) dst2)
  | cv_stylization src _ _ => inr src
  | cv_inpaint src _ _ _ => inr src
  end.

Definition toy : NativeLibrary := {|
  exec := toy_exec;
  colored_h := 0x40400000; colored_hColor := 0x40400000;
  colored_templateWindowSize := 7; colored_searchWindowSize := 21;
  multi_h := 0x40400000; multi_hColor := 0x40400000;
  multi_templateWindowSize := 7; multi_searchWindowSize := 21;
  mertens_contrast_weight := 0x3F800000;
  mertens_saturation_weight := 0x3F800000;
  mertens_exposure_weight := 0;
  mtb_max_bits := 6; mtb_exclude_range := 4; mtb_cut := true;
  args_right_to_left := true
|}.

(** A heap with three images, a sequence and the two algorithm objects.
    Each example image has a buffer of its own, numbered by its grey
    value. *)
Definition gray (n v : Z) : cvMat :=
  {| rows := n; cols := n; mtype := 0; data := replicate (Z.to_nat (n * n)) v;
     buf := Z.to_nat v |}.

Definition heap0 : heap :=
  [ None;
    Some (O_cvMat (gray 2 200));
    Some (O_cvMat (gray 4 50));
    Some (O_cvMat (gray 2 1));
    Some (O_vecMat [gray 2 10; gray 2 20; gray 2 30]);
    Some (O_MergeMertens {| contrast_weight := 0x3F800000;
                            saturation_weight := 0x3F800000;
                            exposure_weight := 0 |});
    Some (O_AlignMTB {| max_bits := 6; exclude_range := 4; cut := true |}) ].

Definition state0 : state := {| st_heap := heap0; st_trace := [] |}.

Definition h_src : Mat := {| ptr := 1%nat |}.
Definition h_dst : Mat := {| ptr := 2%nat |}.
Definition h_mask : Mat := {| ptr := 3%nat |}.
Definition h_seq : VecMat := {| ptr := 4%nat |}.
Definition h_fuse : MergeMertens := {| ptr := 5%nat |}.
Definition h_align : AlignMTB := {| ptr := 6%nat |}.

(** The same heap with one more image, of the size of the first. *)
Definition state1 : state :=
  {| st_heap := heap0 ++ [Some (O_cvMat (gray 2 7))]; st_trace := [] |}.

Definition h_src2 : Mat := {| ptr := 7%nat |}.

(** Callbacks: one that takes note of nothing and returns, one that
    raises. *)
Definition cb_quiet : CvCallback_1 := {| cb_fun := fun _ h => CbReturn h |}.

Definition cb_raising : CvCallback_1 :=
  {| cb_fun := fun _ h => CbRaise (other_exception "callback failed") h |}.

(** ** The shape of a call

    Two predicates used to describe every call at once. *)

(** The native routine left the heap [h] as [h1]: nothing was allocated
    or freed; every live object is still live, with its type; an object it
    does not write through and that holds no pixels is as it was; and so
    is one that holds pixels, provided it shares no buffer with what the
    routine left in the (distinct) objects it writes through. *)
Definition borrowed_intact (c : call) (h h1 : heap) : Prop :=
  length h1 = length h /\
  (forall a o, h !! a = Some (Some o) ->
     exists o', h1 !! a = Some (Some o') /\ same_type o o' = true) /\
  (forall a o, h !! a = Some (Some o) -> a ∉ written_ptrs c ->
     bufs_of o = [] -> h1 !! a = Some (Some o)) /\
  (forall a o, h !! a = Some (Some o) -> a ∉ written_ptrs c ->
     NoDup (written_ptrs c) ->
     (forall w m, w ∈ written_ptrs c -> h1 !! w = Some (Some (O_cvMat m)) ->
        buf m ∉ bufs_of o) ->
     h1 !! a = Some (Some o)).

(** What is allocated, from address [base] on, and what is passed to the
    callback: one native object and its handle, or, for two outputs, two
    matrices each with its handle, the first output's pair allocated first
    or second. *)
Inductive delivery (c : call) (base : nat)
  : list (addr * object) -> list addr -> Prop :=
| deliver_1 (o : object) (k : kind) :
    output_count c = 1%nat -> has_kind k o = true ->
    delivery c base [(base, o); (S base, O_Handle k base)] [S base]
| deliver_2 (m1 m2 : cvMat) :
    output_count c = 2%nat ->
    delivery c base
      [(base, O_cvMat m1); (S base, O_Handle K_cvMat base);
       (S (S base), O_cvMat m2); (S (S (S base)), O_Handle K_cvMat (S (S base)))]
      [S base; S (S (S base))]
| deliver_2_rev (m1 m2 : cvMat) :
    output_count c = 2%nat ->
    delivery c base
      [(base, O_cvMat m2); (S base, O_Handle K_cvMat base);
       (S (S base), O_cvMat m1); (S (S (S base)), O_Handle K_cvMat (S (S base)))]
      [S (S (S base)); S base].

(** The status that the envelope makes of the way the callback ended. *)
Definition cb_status (catch_line : Z) (o : cb_outcome) : Status :=
  match o with
  | CbReturn _ => OK
  | CbRaise e _ => Some (status_of_exn catch_line e)
  end.

(** The heap on which the callback runs, and the events up to there. *)
Definition heap_at_callback (h1 : heap) (news : list (addr * object)) : heap :=
  h1 ++ map (fun p => Some (snd p)) news.

(** Every call with live handles ends in one of two ways. *)
Inductive ending `{NativeLibrary} (c : call) (cb : CvCallback_1) (s : state)
    (r : native_req) : Prop :=
| native_raised (e : exn) :
    raised_by r = Some e ->
    run c cb s =
      Returned (Some (status_of_exn (catch_line c) e)) (log (EvNative (projT2 r)) s) ->
    ending c cb s r
| native_returned (h1 : heap) (news : list (addr * object)) (args : list addr) :
    raised_by r = None ->
    borrowed_intact c (st_heap s) h1 ->
    delivery c (length h1) news args ->
    run c cb s =
      Returned (cb_status (catch_line c) (cb_fun cb args (heap_at_callback h1 news)))
        {| st_heap := cb_heap (cb_fun cb args (heap_at_callback h1 news));
           st_trace := st_trace s ++
                       (EvNative (projT2 r) :: map ev_new news) ++ [EvCallback 1 args] |} ->
    ending c cb s r.

(** ** Assumptions on the native library

    The [process] methods of the two algorithm classes are not [const].
    A library whose methods leave the algorithm object as they found it
    satisfies the following. *)
Definition process_stateless `{NativeLibrary} : Prop :=
  (forall self src out self',
     exec (cv_MergeMertens_process self src) = inr (out, self') -> self' = self) /\
  (forall self src dst out self',
     exec (cv_AlignMTB_process self src dst) = inr (out, self') -> self' = self).

Definition is_algorithm (o : object) : bool :=
  match o with
  | O_MergeMertens _ | O_AlignMTB _ => true
  | _ => false
  end.

(** The one entry point whose native routine writes pixels into arrays of
    the caller. *)
Definition writes_pixels (c : call) : bool :=
  match c with
  | PencilSketch _ _ _ _ _ _ => true
  | _ => false
  end.

(** ** Borrowing

    The same call made once per callback of a list, each on the state the
    previous one left: the way an algorithm handle is reused. *)
Fixpoint run_seq `{NativeLibrary} (c : call) (cbs : list CvCallback_1) (s : state)
  : option (list Status * state) :=
  match cbs with
  | [] => Some ([], s)
  | cb :: cbs' =>
      match run c cb s with
      | Returned st s1 =>
          match run_seq c cbs' s1 with
          | Some (sts, s2) => Some (st :: sts, s2)
          | None => None
          end
      | Crash => None
      end
  end.

(** What a call that only borrows leaves behind: the trace has grown by
    events in which no new handle structure points to an object that was
    live before; and every object that was live is still live, with its
    type, and, if it holds no pixels, unchanged unless the native routine
    writes through it. *)
Definition borrowed_through (c : call) (s s' : state) : Prop :=
  (exists ext,
     st_trace s' = st_trace s ++ ext /\
     forall a k p, (a, O_Handle k p) ∈ new_events ext -> load (st_heap s) p = None) /\
  (forall a o, st_heap s !! a = Some (Some o) ->
     exists o', st_heap s' !! a = Some (Some o') /\ same_type o o' = true /\
                (a ∉ written_ptrs c -> bufs_of o = [] -> o' = o)).

(** The object at [a] is live in both heaps, with the same type. *)
Definition retyped (h h' : heap) (a : addr) : Prop :=
  exists o o', h !! a = Some (Some o) /\ h' !! a = Some (Some o') /\
               same_type o o' = true.

(** ** What a call produces, exactly

    The objects a call creates and the heap it leaves, written as functions
    of the native routine's result. *)

(** The handle kind under which a native object is wrapped. *)
Definition kind_of (o : object) : kind :=
  match o with
  | O_cvMat _ => K_cvMat
  | O_vecMat _ => K_vecMat
  | O_MergeMertens _ => K_MergeMertens
  | O_AlignMTB _ => K_AlignMTB
  | O_Handle k _ => k
  end.

(** Objects allocated one after the other from [base], each followed by
    its handle structure; and the addresses of those handle structures. *)
Fixpoint layout (base : nat) (os : list object) : list (addr * object) :=
  match os with
  | [] => []
  | o :: os' =>
      (base, o) :: (S base, O_Handle (kind_of o) base) :: layout (S (S base)) os'
  end.

Fixpoint handles_at (base : nat) (os : list object) : list addr :=
  match os with
  | [] => []
  | _ :: os' => S base :: handles_at (S (S base)) os'
  end.

(** What a native routine hands back for the shim to wrap, and what a
    [process] method leaves in its receiver. *)
Definition result_objects {A} (n : native_call A) : A -> list object :=
  match n in native_call T return T -> list object with
  | cv_colorChange _ _ _ _ _ => fun m => [O_cvMat m]
  | cv_seamlessClone _ _ _ _ _ => fun m => [O_cvMat m]
  | cv_illuminationChange _ _ _ _ => fun m => [O_cvMat m]
  | cv_textureFlattening _ _ _ _ _ => fun m => [O_cvMat m]
  | cv_fastNlMeansDenoisingColoredMulti _ _ _ _ _ _ _ => fun m => [O_cvMat m]
  | cv_fastNlMeansDenoising _ _ _ _ => fun m => [O_cvMat m]
  | cv_fastNlMeansDenoisingColored _ _ _ _ _ => fun m => [O_cvMat m]
  | cv_createMergeMertens _ _ _ => fun a => [O_MergeMertens a]
  | cv_MergeMertens_process _ _ => fun r => [O_cvMat (fst r)]
  | cv_createAlignMTB _ _ _ => fun a => [O_AlignMTB a]
  | cv_AlignMTB_process _ _ _ => fun r => [O_vecMat (fst r)]
  | cv_detailEnhance _ _ _ => fun m => [O_cvMat m]
  | cv_edgePreservingFilter _ _ _ _ => fun m => [O_cvMat m]
  | cv_pencilSketch _ _ _ _ _ _ => fun r => [O_cvMat (fst r); O_cvMat (snd r)]
  | cv_stylization _ _ _ => fun m => [O_cvMat m]
  | cv_inpaint _ _ _ _ => fun m => [O_cvMat m]
  end.

Definition native_writes {A} (n : native_call A) : A -> list object :=
  match n in native_call T return T -> list object with
  | cv_MergeMertens_process _ _ => fun r => [O_MergeMertens (snd r)]
  | cv_AlignMTB_process _ _ _ => fun r => [O_AlignMTB (snd r)]
  | _ => fun _ => []
  end.

(** The writes to objects that hold no pixels, in order. *)
Fixpoint write_back (ps : list addr) (os : list object) (h : heap) : heap :=
  match ps, os with
  | p :: ps', o :: os' => write_back ps' os' (<[p := Some o]> h)
  | _, _ => h
  end.

(** A handle structure at [rh] of the kind of [o], around a live [o]. *)
Definition wraps (h : heap) (rh : addr) (o : object) : Prop :=
  exists p, h !! rh = Some (Some (O_Handle (kind_of o) p)) /\ h !! p = Some (Some o).

(** The handle structures a call allocated, in order. *)
Definition allocated_handles (s s' : state) : list addr :=
  map fst (filter (fun p => is_native (snd p) = false) (new_events (since s s'))).

(** * Properties *)

(** ** Reading the heap *)

Lemma load_Some (h : heap) a o : load h a = Some o <-> h !! a = Some (Some o).
Proof.
  unfold load. destruct (h !! a) as [[o'|]|]; simpl; split; congruence.
Qed.

Lemma read_cvMat_Some (h : heap) a m :
  read_cvMat h a = Some m <-> h !! a = Some (Some (O_cvMat m)).
Proof.
  unfold read_cvMat. rewrite <- load_Some.
  destruct (load h a) as [[]|]; split; congruence.
Qed.

Lemma read_vecMat_Some (h : heap) a m :
  read_vecMat h a = Some m <-> h !! a = Some (Some (O_vecMat m)).
Proof.
  unfold read_vecMat. rewrite <- load_Some.
  destruct (load h a) as [[]|]; split; congruence.
Qed.

Lemma read_MergeMertens_Some (h : heap) a m :
  read_MergeMertens h a = Some m <-> h !! a = Some (Some (O_MergeMertens m)).
Proof.
  unfold read_MergeMertens. rewrite <- load_Some.
  destruct (load h a) as [[]|]; split; congruence.
Qed.

Lemma read_AlignMTB_Some (h : heap) a m :
  read_AlignMTB h a = Some m <-> h !! a = Some (Some (O_AlignMTB m)).
Proof.
  unfold read_AlignMTB. rewrite <- load_Some.
  destruct (load h a) as [[]|]; split; congruence.
Qed.

(** ** Shared pixels *)

Lemma with_pixels_of_buf (r m : cvMat) : buf (with_pixels_of r m) = buf m.
Proof. unfold with_pixels_of. destruct (decide (buf m = buf r)); reflexivity. Qed.

Lemma with_pixels_of_other (r m : cvMat) : buf m <> buf r -> with_pixels_of r m = m.
Proof.
  intros Hne. unfold with_pixels_of.
  destruct (decide (buf m = buf r)); [contradiction|reflexivity].
Qed.

Lemma seen_through_same_type (r : cvMat) (o : object) :
  same_type o (seen_through r o) = true.
Proof. destruct o; simpl; try reflexivity. apply bool_decide_eq_true. reflexivity. Qed.

Lemma seen_through_other (r : cvMat) (o : object) :
  buf r ∉ bufs_of o -> seen_through r o = o.
Proof.
  destruct o as [m|v| | |]; simpl; intros Hn; try reflexivity.
  - rewrite with_pixels_of_other; [reflexivity|].
    intros Heq. apply Hn. rewrite Heq. left.
  - f_equal. induction v as [|m v IH]; [reflexivity|]. simpl in *.
    rewrite with_pixels_of_other, IH; [reflexivity| |].
    + intros Hin. apply Hn. right. exact Hin.
    + intros Heq. apply Hn. rewrite Heq. left.
Qed.

Lemma seen_through_no_pixels (r : cvMat) (o : object) :
  bufs_of o = [] -> seen_through r o = o.
Proof.
  intros Hb. apply seen_through_other. rewrite Hb. apply not_elem_of_nil.
Qed.

Lemma length_written (a : addr) (r : cvMat) (h : heap) :
  length (written a r h) = length h.
Proof. unfold written. rewrite length_insert, length_fmap. reflexivity. Qed.

Lemma written_lookup_ne (a a' : addr) (r : cvMat) (h : heap) (o : object) :
  a' <> a -> h !! a' = Some (Some o) ->
  written a r h !! a' = Some (Some (seen_through r o)).
Proof.
  intros Hne Ha. unfold written.
  rewrite list_lookup_insert_ne by congruence.
  rewrite list_lookup_fmap, Ha. reflexivity.
Qed.

Lemma written_lookup_eq (a : addr) (r : cvMat) (h : heap) (o : object) :
  h !! a = Some (Some o) -> written a r h !! a = Some (Some (O_cvMat r)).
Proof.
  intros Ha. unfold written. apply list_lookup_insert_eq.
  rewrite length_fmap. eapply lookup_lt_Some, Ha.
Qed.

Lemma read_cvMat_written (h : heap) (a a' : addr) (m r : cvMat) :
  read_cvMat h a' = Some m ->
  read_cvMat (written a r h) a' =
    Some (if decide (a' = a) then r else with_pixels_of r m).
Proof.
  intros Ha. apply read_cvMat_Some in Ha. apply read_cvMat_Some.
  destruct (decide (a' = a)) as [->|Hne].
  - eapply written_lookup_eq, Ha.
  - apply (written_lookup_ne a a' r h (O_cvMat m) Hne Ha).
Qed.

Lemma written_live (h : heap) (a : addr) (m r : cvMat) :
  read_cvMat h a = Some m ->
  forall a' o, h !! a' = Some (Some o) ->
    exists o', written a r h !! a' = Some (Some o') /\ same_type o o' = true.
Proof.
  intros Ha a' o Ho. apply read_cvMat_Some in Ha.
  destruct (decide (a' = a)) as [->|Hne].
  - exists (O_cvMat r). split; [eapply written_lookup_eq, Ha|].
    rewrite Ha in Ho. injection Ho as <-. reflexivity.
  - exists (seen_through r o). split; [apply written_lookup_ne; assumption|].
    apply seen_through_same_type.
Qed.

Lemma same_type_refl (o : object) : same_type o o = true.
Proof. destruct o; simpl; try reflexivity. apply bool_decide_eq_true. reflexivity. Qed.

Lemma same_type_trans (o1 o2 o3 : object) :
  same_type o1 o2 = true -> same_type o2 o3 = true -> same_type o1 o3 = true.
Proof.
  destruct o1, o2; simpl; try discriminate; destruct o3; simpl;
    try discriminate; try reflexivity.
  rewrite !bool_decide_eq_true. congruence.
Qed.

Lemma borrowed_intact_refl (c : call) (h : heap) :
  written_ptrs c = [] -> borrowed_intact c h h.
Proof.
  intros Hw. split; [reflexivity|]. split; [|split].
  - intros a o Ha. exists o. split; [exact Ha|apply same_type_refl].
  - intros a o Ha _ _. exact Ha.
  - intros a o Ha _ _ _. exact Ha.
Qed.

Lemma borrowed_intact_store (c : call) (h : heap) (a : addr) (o o' : object) :
  written_ptrs c = [a] -> h !! a = Some (Some o) -> same_type o o' = true ->
  bufs_of o' = [] ->
  borrowed_intact c h (<[a := Some o']> h).
Proof.
  intros Hw Ha Hty Hb. split; [apply length_insert|].
  assert (Hne : forall a', a' ∉ written_ptrs c -> a' <> a).
  { intros a' Hn ->. apply Hn. rewrite Hw. left. }
  split; [|split].
  - intros a' o0 Ha'. destruct (decide (a' = a)) as [->|Hd].
    + exists o'. split; [apply list_lookup_insert_eq; eapply lookup_lt_Some, Ha|].
      congruence.
    + exists o0. rewrite list_lookup_insert_ne by congruence.
      split; [exact Ha'|apply same_type_refl].
  - intros a' o0 Ha' Hn _. rewrite list_lookup_insert_ne; [exact Ha'|].
    intros Heq. apply (Hne a' Hn). congruence.
  - intros a' o0 Ha' Hn _ _. rewrite list_lookup_insert_ne; [exact Ha'|].
    intros Heq. apply (Hne a' Hn). congruence.
Qed.

Lemma read_cvMat_app (h l : heap) (a : addr) (m : cvMat) :
  read_cvMat h a = Some m -> read_cvMat (h ++ l) a = Some m.
Proof.
  intros Ha. apply read_cvMat_Some in Ha. apply read_cvMat_Some.
  rewrite lookup_app_l; [exact Ha|]. eapply lookup_lt_Some, Ha.
Qed.

(** The heap after [cv::pencilSketch] has left [r1] in [dst1] and [r2] in
    [dst2]. *)
Lemma borrowed_intact_written2 (c : call) (h : heap) (a1 a2 : addr)
    (m1 m2 r1 r2 : cvMat) :
  written_ptrs c = [a1; a2] ->
  read_cvMat h a1 = Some m1 -> read_cvMat h a2 = Some m2 ->
  borrowed_intact c h (written a2 r2 (written a1 r1 h)).
Proof.
  intros Hw H1 H2.
  pose proof (read_cvMat_written h a1 a2 m2 r1 H2) as H2'.
  split; [rewrite !length_written; reflexivity|].
  assert (Hne : forall a, a ∉ written_ptrs c -> a <> a1 /\ a <> a2).
  { intros a Hn. rewrite Hw in Hn. split; intros ->; apply Hn;
      [left|right; left]. }
  split; [|split].
  - intros a o Ha.
    destruct (written_live h a1 m1 r1 H1 a o Ha) as (o1 & Ho1 & Ht1).
    destruct (written_live _ a2 _ r2 H2' a o1 Ho1) as (o2 & Ho2 & Ht2).
    exists o2. split; [exact Ho2|]. eapply same_type_trans; eassumption.
  - intros a o Ha Hn Hb. destruct (Hne a Hn) as [Hn1 Hn2].
    rewrite (written_lookup_ne a2 a r2 _ (seen_through r1 o) Hn2
               (written_lookup_ne a1 a r1 h o Hn1 Ha)).
    rewrite (seen_through_no_pixels r1 o Hb), (seen_through_no_pixels r2 o Hb).
    reflexivity.
  - intros a o Ha Hn Hnd Hbufs. destruct (Hne a Hn) as [Hn1 Hn2].
    rewrite Hw in Hnd, Hbufs.
    assert (H12 : a1 <> a2).
    { intros ->. apply NoDup_cons in Hnd as [Hnin _]. apply Hnin. left. }
    rewrite (written_lookup_ne a2 a r2 _ (seen_through r1 o) Hn2
               (written_lookup_ne a1 a r1 h o Hn1 Ha)).
    assert (Hb1 : buf r1 ∉ bufs_of o).
    { pose proof (Hbufs a1 (with_pixels_of r2 r1)) as Hx.
      rewrite with_pixels_of_buf in Hx. apply Hx; [left|].
      apply read_cvMat_Some in H1.
      apply (written_lookup_ne a2 a1 r2 _ (O_cvMat r1) H12).
      eapply written_lookup_eq, H1. }
    assert (Hb2 : buf r2 ∉ bufs_of o).
    { apply (Hbufs a2 r2); [right; left|].
      apply read_cvMat_Some in H2'. eapply written_lookup_eq, H2'. }
    rewrite (seen_through_other r1 o Hb1), (seen_through_other r2 o Hb2).
    reflexivity.
Qed.

(** ** Running an entry point symbolically *)

Ltac unfold_entries :=
  cbv [run ColorChange_Async SeamlessClone_Async IlluminationChange_Async
       TextureFlattening_Async FastNlMeansDenoisingColoredMulti_Async
       FastNlMeansDenoisingColoredMultiWithParams_Async
       FastNlMeansDenoising_Async FastNlMeansDenoisingWithParams_Async
       FastNlMeansDenoisingColored_Async
       FastNlMeansDenoisingColoredWithParams_Async
       MergeMertens_Create_Async MergeMertens_CreateWithParams_Async
       MergeMertens_Process_Async AlignMTB_Create_Async
       AlignMTB_CreateWithParams_Async AlignMTB_Process_Async
       DetailEnhance_Async EdgePreservingFilter_Async PencilSketch_Async
       Stylization_Async PhotoInpaint_Async
       WRAP bind deref_Mat deref_VecMat deref_MergeMertens deref_AlignMTB
       deref native new store write_Mat copy_out ret invoke log
       st_heap st_trace
       forwarded req projT2 projT1 mbind option_bind].

Ltac read_inputs :=
  repeat match goal with
  | |- context [read_cvMat ?h (ptr ?a)] =>
      destruct (read_cvMat h (ptr a)) eqn:?; simpl; [|reflexivity]
  | |- context [read_vecMat ?h (ptr ?a)] =>
      destruct (read_vecMat h (ptr a)) eqn:?; simpl; [|reflexivity]
  | |- context [read_MergeMertens ?h (ptr ?a)] =>
      destruct (read_MergeMertens h (ptr a)) eqn:?; simpl; [|reflexivity]
  | |- context [read_AlignMTB ?h (ptr ?a)] =>
      destruct (read_AlignMTB h (ptr a)) eqn:?; simpl; [|reflexivity]
  end.

Ltac call_native :=
  match goal with |- context [exec ?n] => destruct (exec n) as [?|?] eqn:? end;
  simpl; [reflexivity|].

Ltac tidy :=
  rewrite ?length_app; simpl length;
  rewrite ?Nat.add_1_r, <- ?app_assoc; simpl app.

Ltac one_output :=
  lazymatch goal with
  | |- context [cb_fun _ [?r] (?h1 ++ [Some ?o1; Some ?o2])] =>
      exists h1, [(length h1, o1); (S (length h1), o2)], [r]
  end;
  split; [|split; [constructor; reflexivity|]];
  [ first [ apply borrowed_intact_refl; reflexivity
          | eapply borrowed_intact_store;
            [ reflexivity
            | first [ eapply read_MergeMertens_Some; eassumption
                    | eapply read_AlignMTB_Some; eassumption ]
            | reflexivity
            | reflexivity ] ]
  | simpl; rewrite <- ?app_assoc; reflexivity ].

(** What every entry point does, case by case: undefined behaviour on a
    handle that leads nowhere, the status of the exception when the native
    routine raises, and otherwise the allocation of the outputs followed
    by the callback inside the envelope. *)
Lemma run_spec `{NativeLibrary} (c : call) (cb : CvCallback_1) (s : state) :
  match forwarded c (st_heap s) with
  | None => run c cb s = Crash
  | Some r =>
      match exec (projT2 r) with
      | inl e =>
          run c cb s =
          Returned (Some (status_of_exn (catch_line c) e)) (log (EvNative (projT2 r)) s)
      | inr _ =>
          exists h1 news args,
            borrowed_intact c (st_heap s) h1 /\
            delivery c (length h1) news args /\
            run c cb s =
            WRAP (catch_line c) (invoke cb args)
              {| st_heap := h1 ++ map (fun p => Some (snd p)) news;
                 st_trace := st_trace s ++ EvNative (projT2 r) :: map ev_new news |}
      end
  end.
Proof.
  destruct s as [h tr].
  destruct c; unfold_entries; read_inputs; try call_native; tidy;
    try one_output.
  (* PencilSketch: dst1 and dst2 are copied after the native call, in
     either order *)
  match goal with
  | H1 : read_cvMat h (ptr ?d1) = Some ?m1, H2 : read_cvMat h (ptr ?d2) = Some ?m2
    |- context [written (ptr ?d2) ?n2 (written (ptr ?d1) ?n1 h)] =>
      match goal with
      | |- exists _ _ _, borrowed_intact ?c _ _ /\ _ =>
          pose proof (borrowed_intact_written2 c h (ptr d1) (ptr d2) m1 m2 n1 n2
                        eq_refl H1 H2) as Hb
      end;
      pose proof (read_cvMat_written _ (ptr d2) (ptr d1) _ n2
                    (read_cvMat_written h (ptr d1) (ptr d1) m1 n1 H1)) as Ho1;
      pose proof (read_cvMat_written _ (ptr d2) (ptr d2) _ n2
                    (read_cvMat_written h (ptr d1) (ptr d2) m2 n1 H2)) as Ho2;
      set (h1 := written (ptr d2) n2 (written (ptr d1) n1 h)) in *
  end.
  destruct args_right_to_left; simpl.
  - rewrite Ho2. simpl. tidy.
    rewrite (read_cvMat_app h1 _ _ _ Ho1). simpl. tidy.
    replace (length h1 + 2)%nat with (S (S (length h1))) by lia.
    eexists h1, [(length h1, O_cvMat _); (S (length h1), O_Handle K_cvMat (length h1));
                 (S (S (length h1)), O_cvMat _);
                 (S (S (S (length h1))), O_Handle K_cvMat (S (S (length h1))))],
            [S (S (S (length h1))); S (length h1)].
    split; [exact Hb|]. split; [apply deliver_2_rev; reflexivity|].
    simpl. rewrite <- ?app_assoc. reflexivity.
  - rewrite Ho1. simpl. tidy.
    rewrite (read_cvMat_app h1 _ _ _ Ho2). simpl. tidy.
    replace (length h1 + 2)%nat with (S (S (length h1))) by lia.
    eexists h1, [(length h1, O_cvMat _); (S (length h1), O_Handle K_cvMat (length h1));
                 (S (S (length h1)), O_cvMat _);
                 (S (S (S (length h1))), O_Handle K_cvMat (S (S (length h1))))],
            [S (length h1); S (S (S (length h1)))].
    split; [exact Hb|]. split; [apply deliver_2; reflexivity|].
    simpl. rewrite <- ?app_assoc. reflexivity.
Qed.

(** ** Events and endings *)

Lemma since_app (s : state) (h : heap) (ext : list event) :
  since s {| st_heap := h; st_trace := st_trace s ++ ext |} = ext.
Proof. unfold since. simpl. apply drop_app_length. Qed.

Lemma callback_events_news (news : list (addr * object)) :
  callback_events (map ev_new news) = [].
Proof. induction news as [|[a o] news IH]; [reflexivity|exact IH]. Qed.

Lemma new_events_news (news : list (addr * object)) :
  new_events (map ev_new news) = news.
Proof.
  induction news as [|[a o] news IH]; [reflexivity|].
  simpl. unfold new_events in *. simpl. rewrite IH. reflexivity.
Qed.

Lemma WRAP_invoke (l : Z) (cb : CvCallback_1) (args : list addr) (s1 : state) :
  WRAP l (invoke cb args) s1 =
  Returned (cb_status l (cb_fun cb args (st_heap s1)))
    {| st_heap := cb_heap (cb_fun cb args (st_heap s1));
       st_trace := st_trace s1 ++ [EvCallback 1 args] |}.
Proof.
  unfold WRAP, invoke, log. simpl.
  destruct (cb_fun cb args (st_heap s1)); reflexivity.
Qed.

Lemma run_ending `{NativeLibrary} (c : call) (cb : CvCallback_1) (s : state)
    (r : native_req) :
  forwarded c (st_heap s) = Some r -> ending c cb s r.
Proof.
  intros Hr. pose proof (run_spec c cb s) as Hs. rewrite Hr in Hs.
  destruct (exec (projT2 r)) as [e|a] eqn:He.
  - apply (native_raised c cb s r e); [|exact Hs].
    unfold raised_by. rewrite He. reflexivity.
  - destruct Hs as (h1 & news & args & Hb & Hd & Hrun).
    apply (native_returned c cb s r h1 news args); [|exact Hb|exact Hd|].
    + unfold raised_by. rewrite He. reflexivity.
    + rewrite Hrun, WRAP_invoke. simpl. rewrite <- app_assoc. reflexivity.
Qed.

Lemma run_invalid `{NativeLibrary} (c : call) (cb : CvCallback_1) (s : state) :
  forwarded c (st_heap s) = None -> run c cb s = Crash.
Proof. intros Hr. pose proof (run_spec c cb s) as Hs. rewrite Hr in Hs. exact Hs. Qed.

Lemma callback_events_delivery {A} (n : native_call A)
    (news : list (addr * object)) (args : list addr) :
  callback_events ((EvNative n :: map ev_new news) ++ [EvCallback 1 args])
  = [(1%nat, args)].
Proof.
  unfold callback_events. simpl. rewrite omap_app.
  fold (callback_events (map ev_new news)).
  rewrite callback_events_news. reflexivity.
Qed.

Lemma new_events_delivery {A} (n : native_call A)
    (news : list (addr * object)) (args : list addr) :
  new_events ((EvNative n :: map ev_new news) ++ [EvCallback 1 args]) = news.
Proof.
  unfold new_events. simpl. rewrite omap_app.
  fold (new_events (map ev_new news)).
  rewrite new_events_news. simpl. apply app_nil_r.
Qed.

Lemma since_log (s : state) (e : event) : since s (log e s) = [e].
Proof. destruct s. unfold log. simpl. apply (since_app {| st_heap := _; st_trace := _ |}). Qed.

Lemma delivery_args (c : call) (b : nat) news args :
  delivery c b news args -> length args = output_count c /\ news <> [].
Proof. intros [o k Hc Hk|m1 m2 Hc|m1 m2 Hc]; split; simpl; congruence. Qed.

Lemma cb_returns_status {n} (cb : CvCallback n) l args h :
  cb_returns cb -> cb_status l (cb_fun cb args h) = OK.
Proof. intros Hc. destruct (Hc args h) as [h' ->]. reflexivity. Qed.

(** ** The shim at work

    Two runs on the small library: a colour change that succeeds, and a
    seamless clone whose mask does not have the size of its source. *)

Example ColorChange_delivers :
  exists s',
    @run toy (ColorChange h_src h_mask 0x3F800000 0x3F800000 0x3F800000)
      cb_quiet state0 = Returned OK s' /\
    delivered state0 s' = [8%nat] /\
    outputs state0 s' = [O_cvMat (gray 2 200)] /\
    load (st_heap s') 8 = Some (O_Handle K_cvMat 7).
Proof. eexists. split; [vm_compute; reflexivity|]. repeat split. Qed.

Example SeamlessClone_mask_mismatch :
  exists s',
    @run toy (SeamlessClone h_src h_dst h_dst {| x := 8; y := 8 |} 1)
      cb_quiet state0 =
      Returned (Some {| code := LibraryError; msg := "size mismatch";
                        file := "photo_async.cpp"; line := 20 |}) s' /\
    invocations state0 s' = 0%nat /\
    st_heap s' = heap0.
Proof. eexists. split; [vm_compute; reflexivity|]. repeat split. Qed.

Example dangling_handle_is_undefined :
  @run toy (DetailEnhance {| ptr := 0%nat |} 0 0) cb_quiet state0 = Crash.
Proof. reflexivity. Qed.

(** ** Status and callback (C1, C10, C2)  *)

(** C1, as amended.  For every entry point and every call whose handles
    lead to live objects, the entry point returns a status; it returns OK
    only if the callback was invoked exactly once, and the callback is
    never invoked more than once.  If the callback itself returns normally,
    the status is OK if and only if the callback was invoked exactly once,
    and on every failure path the callback is invoked zero times and no
    output handle is allocated. *)
Theorem status_OK_iff_callback_once `{NativeLibrary}
    (c : call) (cb : CvCallback_1) (s : state) :
  valid_call c (st_heap s) ->
  exists st s',
    run c cb s = Returned st s' /\
    (st = OK -> invocations s s' = 1%nat) /\
    (invocations s s' <= 1)%nat /\
    (cb_returns cb ->
       (st = OK <-> invocations s s' = 1%nat) /\
       (st <> OK -> invocations s s' = 0%nat /\ new_events (since s s') = [])).
Proof.
  intros [r Hr].
  destruct (run_ending c cb s r Hr) as [e He Hrun|h1 news args Hn Hb Hd Hrun];
    rewrite Hrun; eexists _, _; (split; [reflexivity|]);
    unfold invocations.
  - rewrite since_log. simpl.
    split; [discriminate|]. split; [lia|]. intros _.
    split; [split; discriminate|]. intros _. split; reflexivity.
  - rewrite since_app, callback_events_delivery. simpl.
    split; [reflexivity|]. split; [lia|]. intros Hc.
    rewrite (cb_returns_status cb _ _ _ Hc).
    split; [split; reflexivity|]. intros Hne. contradiction.
Qed.

Lemma status_OK_iff_callback_once_witness :
  exists st s',
    @run toy (ColorChange h_src h_mask 0 0 0) cb_quiet state0 = Returned st s' /\
    (st = OK -> invocations state0 s' = 1%nat) /\
    (invocations state0 s' <= 1)%nat /\
    (cb_returns cb_quiet ->
       (st = OK <-> invocations state0 s' = 1%nat) /\
       (st <> OK -> invocations state0 s' = 0%nat /\ new_events (since state0 s') = [])).
Proof.
  apply (@status_OK_iff_callback_once toy (ColorChange h_src h_mask 0 0 0) cb_quiet state0).
  vm_compute. eexists. reflexivity.
Defined.

(** C1, counterexample.  The claim as stated covers every input, hence
    every callback.  With a callback that raises, [ColorChange_Async]
    returns a failure status although the callback was invoked once, and
    the output matrix and its handle were allocated on that failure path. *)
Lemma raising_callback_breaks_iff :
  exists st s',
    @run toy (ColorChange h_src h_mask 0 0 0) cb_raising state0 = Returned st s' /\
    st <> OK /\ invocations state0 s' = 1%nat /\
    new_events (since state0 s') <> [].
Proof.
  eexists _, _. split; [vm_compute; reflexivity|].
  split; [discriminate|]. split; [reflexivity|]. vm_compute. discriminate.
Qed.

(** C10.  If the native routine succeeds and the callback raises, the
    exception is caught by the same envelope: the entry point returns the
    failure status made from the callback's exception, with the entry
    point's catch line, and the callback has been invoked exactly once. *)
Theorem callback_exception_is_caught `{NativeLibrary}
    (c : call) (cb : CvCallback_1) (s : state) (r : native_req) (e : exn) :
  forwarded c (st_heap s) = Some r ->
  raised_by r = None ->
  (forall args h, exists h', cb_fun cb args h = CbRaise e h') ->
  exists s',
    run c cb s = Returned (Some (status_of_exn (catch_line c) e)) s' /\
    invocations s s' = 1%nat.
Proof.
  intros Hr Hn Hcb.
  destruct (run_ending c cb s r Hr) as [e' He Hrun|h1 news args _ Hb Hd Hrun];
    [congruence|].
  rewrite Hrun. destruct (Hcb args (heap_at_callback h1 news)) as [h' Hh'].
  rewrite Hh'. eexists. split; [reflexivity|].
  unfold invocations. rewrite since_app, callback_events_delivery. reflexivity.
Qed.

Lemma callback_exception_is_caught_witness :
  exists s',
    @run toy (ColorChange h_src h_mask 0 0 0) cb_raising state0 =
      Returned (Some (status_of_exn 11 (other_exception "callback failed"))) s' /\
    invocations state0 s' = 1%nat.
Proof.
  apply (@callback_exception_is_caught toy (ColorChange h_src h_mask 0 0 0)
           cb_raising state0
           (req (cv_colorChange (gray 2 200) (gray 2 1) 0 0 0))
           (other_exception "callback failed")).
  - reflexivity.
  - reflexivity.
  - intros args h. exists h. reflexivity.
Defined.

(** C2.  Every entry point signals success by the null status: when
    neither the native routine nor the callback raises, the returned
    pointer is null, and a null status means that the native routine did
    not raise.  When the native library raises its exception, the status is
    a [LibraryError] with the library's message, this file and the line of
    the entry point's catch site; any other raised condition gives a status
    of the generic kind, with the same location marker. *)
Theorem status_protocol `{NativeLibrary}
    (c : call) (cb : CvCallback_1) (s : state) (r : native_req) :
  forwarded c (st_heap s) = Some r ->
  exists st s',
    run c cb s = Returned st s' /\
    (raised_by r = None -> cb_returns cb -> st = None) /\
    (st = None -> raised_by r = None) /\
    (forall what, raised_by r = Some (cv_Exception what) ->
       st = Some {| code := LibraryError; msg := what;
                    file := this_file; line := catch_line c |}) /\
    (forall what, raised_by r = Some (other_exception what) ->
       st = Some {| code := InternalError; msg := what;
                    file := this_file; line := catch_line c |}).
Proof.
  intros Hr.
  destruct (run_ending c cb s r Hr) as [e He Hrun|h1 news args Hn Hb Hd Hrun];
    rewrite Hrun; eexists _, _; (split; [reflexivity|]).
  - split; [congruence|]. split; [discriminate|].
    split; intros what Hw; rewrite Hw in He; injection He as <-; reflexivity.
  - split; [intros _ Hc; apply (cb_returns_status cb _ _ _ Hc)|].
    split; [intros _; exact Hn|]. split; intros what Hw; congruence.
Qed.

Lemma status_protocol_witness :
  let c := SeamlessClone h_src h_dst h_dst {| x := 8; y := 8 |} 1 in
  let r := req (cv_seamlessClone (gray 2 200) (gray 4 50) (gray 4 50)
                  {| cv_x := 8; cv_y := 8 |} 1) in
  exists st s',
    @run toy c cb_quiet state0 = Returned st s' /\
    (@raised_by toy r = None -> cb_returns cb_quiet -> st = None) /\
    (st = None -> @raised_by toy r = None) /\
    (forall what, @raised_by toy r = Some (cv_Exception what) ->
       st = Some {| code := LibraryError; msg := what;
                    file := this_file; line := 20 |}) /\
    (forall what, @raised_by toy r = Some (other_exception what) ->
       st = Some {| code := InternalError; msg := what;
                    file := this_file; line := 20 |}).
Proof.
  apply (@status_protocol toy
           (SeamlessClone h_src h_dst h_dst {| x := 8; y := 8 |} 1) cb_quiet state0
           (req (cv_seamlessClone (gray 2 200) (gray 4 50) (gray 4 50)
                   {| cv_x := 8; cv_y := 8 |} 1))).
  reflexivity.
Defined.

(** ** Forwarding (C7) *)

(** C7.  No entry point checks anything before it calls the native
    routine.  On a handle that leads to no object of its type the call is
    undefined behaviour, not a failure status.  Otherwise the first thing
    the entry point does is the one native call, with the dereferenced
    inputs and the scalar parameters exactly as the specification lists
    them ([forwarded]); if that call raises, the status is made from the
    library's exception and nothing else happens; if it does not, the only
    way to a failure status is an exception of the callback. *)
Theorem parameters_forwarded_unchecked `{NativeLibrary}
    (c : call) (cb : CvCallback_1) (s : state) :
  match forwarded c (st_heap s) with
  | None => run c cb s = Crash
  | Some r =>
      exists st s',
        run c cb s = Returned st s' /\
        head (since s s') = Some (EvNative (projT2 r)) /\
        native_events (since s s') = [req (projT2 r)] /\
        match raised_by r with
        | Some e =>
            st = Some (status_of_exn (catch_line c) e) /\
            since s s' = [EvNative (projT2 r)]
        | None =>
            st = OK \/
            exists args h e h',
              cb_fun cb args h = CbRaise e h' /\
              st = Some (status_of_exn (catch_line c) e)
        end
  end.
Proof.
  destruct (forwarded c (st_heap s)) as [r|] eqn:Hr; [|apply run_invalid, Hr].
  destruct (run_ending c cb s r Hr) as [e He Hrun|h1 news args Hn Hb Hd Hrun];
    rewrite Hrun; eexists _, _; (split; [reflexivity|]).
  - rewrite since_log, He. repeat split; reflexivity.
  - rewrite since_app, Hn. split; [reflexivity|]. split.
    + unfold native_events. simpl. rewrite omap_app. simpl.
      rewrite app_nil_r. f_equal.
      clear. induction news as [|[a o] news IH]; [reflexivity|exact IH].
    + destruct (cb_fun cb args (heap_at_callback h1 news)) as [h'|e h'] eqn:Hcb.
      * left. reflexivity.
      * right. exists args, (heap_at_callback h1 news), e, h'.
        split; [exact Hcb|reflexivity].
Qed.

Ltac at_offset n :=
  rewrite lookup_app_r by lia;
  match goal with |- context [(?x - ?y)%nat] =>
    replace (x - y)%nat with n by lia end;
  reflexivity.

Lemma delivery_handles (c : call) (h1 : heap) news args :
  delivery c (length h1) news args ->
  forall a, a ∈ args ->
    exists k p o,
      (a, O_Handle k p) ∈ news /\ (p, o) ∈ news /\ has_kind k o = true /\
      (length h1 <= p)%nat /\ (length h1 <= a)%nat /\ p <> a /\
      heap_at_callback h1 news !! a = Some (Some (O_Handle k p)) /\
      heap_at_callback h1 news !! p = Some (Some o).
Proof.
  unfold heap_at_callback.
  intros [o k Hc Hk|m1 m2 Hc|m1 m2 Hc] a Ha.
  - apply list_elem_of_singleton in Ha as ->.
    exists k, (length h1), o. simpl.
    split; [right; left|]. split; [left|]. split; [exact Hk|].
    split; [lia|]. split; [lia|]. split; [lia|].
    split; [at_offset 1%nat|at_offset 0%nat].
  - apply elem_of_cons in Ha as [->|Ha];
      [|apply list_elem_of_singleton in Ha as ->].
    + exists K_cvMat, (length h1), (O_cvMat m1). simpl.
      split; [right; left|]. split; [left|]. split; [reflexivity|].
      split; [lia|]. split; [lia|]. split; [lia|].
      split; [at_offset 1%nat|at_offset 0%nat].
    + exists K_cvMat, (S (S (length h1))), (O_cvMat m2). simpl.
      split; [do 3 right; left|]. split; [do 2 right; left|].
      split; [reflexivity|].
      split; [lia|]. split; [lia|]. split; [lia|].
      split; [at_offset 3%nat|at_offset 2%nat].
  - apply elem_of_cons in Ha as [->|Ha];
      [|apply list_elem_of_singleton in Ha as ->].
    + exists K_cvMat, (S (S (length h1))), (O_cvMat m1). simpl.
      split; [do 3 right; left|]. split; [do 2 right; left|].
      split; [reflexivity|].
      split; [lia|]. split; [lia|]. split; [lia|].
      split; [at_offset 3%nat|at_offset 2%nat].
    + exists K_cvMat, (length h1), (O_cvMat m2). simpl.
      split; [right; left|]. split; [left|]. split; [reflexivity|].
      split; [lia|]. split; [lia|]. split; [lia|].
      split; [at_offset 1%nat|at_offset 0%nat].
Qed.

(** ** Delivery (C8, C4) *)

(** C8.  On the success path the callback event is the last event of the
    call and the only callback event; its arguments are handle structures
    allocated earlier in the same call, at addresses that were not in use
    before the call, and live in the heap the callback runs on; and the
    heap at the moment the status is returned is the heap the callback
    left: the callback has run to its end before the entry point returns.
    (An entry point is a sequential function: there is nothing in it that
    suspends or starts a thread.) *)
Theorem callback_before_return `{NativeLibrary}
    (c : call) (cb : CvCallback_1) (s : state) :
  valid_call c (st_heap s) ->
  exists st s',
    run c cb s = Returned st s' /\
    (st = OK ->
     exists pre args hc,
       since s s' = pre ++ [EvCallback 1 args] /\
       callback_events pre = [] /\
       length args = output_count c /\
       (forall a, a ∈ args ->
          (length (st_heap s) <= a)%nat /\
          exists k p, (a, O_Handle k p) ∈ new_events pre /\
                      hc !! a = Some (Some (O_Handle k p))) /\
       cb_fun cb args hc = CbReturn (st_heap s')).
Proof.
  intros [r Hr].
  destruct (run_ending c cb s r Hr) as [e He Hrun|h1 news args Hn Hb Hd Hrun];
    rewrite Hrun; eexists _, _; (split; [reflexivity|]); [discriminate|].
  intros Hok.
  exists (EvNative (projT2 r) :: map ev_new news), args, (heap_at_callback h1 news).
  split; [apply since_app|].
  split; [apply (callback_events_news news)|].
  split; [apply (delivery_args _ _ _ _ Hd)|].
  split.
  - intros a Ha.
    destruct (delivery_handles c h1 news args Hd a Ha)
      as (k & p & o & Hin & _ & _ & _ & Hle & _ & Hl & _).
    destruct Hb as [Hlen _]. split; [lia|].
    exists k, p. split; [|exact Hl].
    change (new_events (EvNative (projT2 r) :: map ev_new news))
      with (new_events (map ev_new news)).
    rewrite new_events_news. exact Hin.
  - simpl. destruct (cb_fun cb args (heap_at_callback h1 news)) as [h'|e h'];
      [reflexivity|discriminate].
Qed.

Lemma callback_before_return_witness :
  exists st s',
    @run toy (PhotoInpaint h_src h_mask 0x40400000 1) cb_quiet state0 = Returned st s' /\
    (st = OK ->
     exists pre args hc,
       since state0 s' = pre ++ [EvCallback 1 args] /\
       callback_events pre = [] /\
       length args = 1%nat /\
       (forall a, a ∈ args ->
          (7 <= a)%nat /\
          exists k p, (a, O_Handle k p) ∈ new_events pre /\
                      hc !! a = Some (Some (O_Handle k p))) /\
       cb_fun cb_quiet args hc = CbReturn (st_heap s')).
Proof.
  apply (@callback_before_return toy (PhotoInpaint h_src h_mask 0x40400000 1)
           cb_quiet state0).
  eexists. reflexivity.
Defined.

(** ** Paired forms (C5) *)

(** C5.  For each of the five operations that exist in both forms, the
    parameter-free entry point and the [WithParams] entry point called
    with the native library's documented defaults behave alike on every
    input: the same status (up to the line of the catch site), the same
    heap with the same output in it, the same events.  In particular
    [FastNlMeansDenoising(src)] is
    [FastNlMeansDenoisingWithParams(src, 3, 7, 21)]. *)
Theorem parameter_free_is_with_defaults `{NativeLibrary}
    (p : paired) (cb : CvCallback_1) (s : state) :
  same_result (run (parameter_free p) cb s) (run (with_defaults p) cb s).
Proof.
  destruct s as [h tr].
  destruct p; unfold same_result, parameter_free, with_defaults;
    unfold_entries;
    cbv [h_default templateWindowSize_default searchWindowSize_default];
    repeat match goal with
    | |- context [read_cvMat ?h (ptr ?a)] =>
        destruct (read_cvMat h (ptr a)) eqn:?; simpl; [|exact I]
    | |- context [read_vecMat ?h (ptr ?a)] =>
        destruct (read_vecMat h (ptr a)) eqn:?; simpl; [|exact I]
    end;
    match goal with |- context [exec ?n] => destruct (exec n) as [e|?] end;
    simpl;
    try (split; [destruct e|]; reflexivity);
    match goal with |- context [cb_fun ?c ?a ?hh] =>
      destruct (cb_fun c a hh) as [?|e ?] end;
    simpl; (split; [try destruct e|]; reflexivity).
Qed.

(** ** Process calls in closed form *)

Lemma MergeMertens_Process_eval `{NativeLibrary} (b : MergeMertens) (src : VecMat)
    (cb : CvCallback_1) (h : heap) (tr : list event) self v :
  read_MergeMertens h (ptr b) = Some self ->
  read_vecMat h (ptr src) = Some v ->
  run (MergeMertens_Process b src) cb {| st_heap := h; st_trace := tr |} =
  match exec (cv_MergeMertens_process self v) with
  | inl e =>
      Returned (Some (status_of_exn 110 e))
        {| st_heap := h;
           st_trace := tr ++ [EvNative (cv_MergeMertens_process self v)] |}
  | inr out =>
      let h1 := <[ptr b := Some (O_MergeMertens (snd out))]> h in
      let hc := h1 ++ [Some (O_cvMat (fst out));
                       Some (O_Handle K_cvMat (length h))] in
      Returned (cb_status 110 (cb_fun cb [S (length h)] hc))
        {| st_heap := cb_heap (cb_fun cb [S (length h)] hc);
           st_trace := tr ++ [EvNative (cv_MergeMertens_process self v);
                              EvNew (length h) (O_cvMat (fst out));
                              EvNew (S (length h)) (O_Handle K_cvMat (length h));
                              EvCallback 1 [S (length h)]] |}
  end.
Proof.
  intros Hb Hv. unfold_entries. rewrite Hb, Hv. simpl.
  destruct (exec (cv_MergeMertens_process self v)) as [e|out]; simpl;
    [reflexivity|].
  tidy. rewrite length_insert.
  destruct (cb_fun cb _ _); reflexivity.
Qed.

Lemma AlignMTB_Process_eval `{NativeLibrary} (b : AlignMTB) (src : VecMat)
    (cb : CvCallback_1) (h : heap) (tr : list event) self v :
  read_AlignMTB h (ptr b) = Some self ->
  read_vecMat h (ptr src) = Some v ->
  run (AlignMTB_Process b src) cb {| st_heap := h; st_trace := tr |} =
  match exec (cv_AlignMTB_process self v []) with
  | inl e =>
      Returned (Some (status_of_exn 131 e))
        {| st_heap := h;
           st_trace := tr ++ [EvNative (cv_AlignMTB_process self v [])] |}
  | inr out =>
      let h1 := <[ptr b := Some (O_AlignMTB (snd out))]> h in
      let hc := h1 ++ [Some (O_vecMat (fst out));
                       Some (O_Handle K_vecMat (length h))] in
      Returned (cb_status 131 (cb_fun cb [S (length h)] hc))
        {| st_heap := cb_heap (cb_fun cb [S (length h)] hc);
           st_trace := tr ++ [EvNative (cv_AlignMTB_process self v []);
                              EvNew (length h) (O_vecMat (fst out));
                              EvNew (S (length h)) (O_Handle K_vecMat (length h));
                              EvCallback 1 [S (length h)]] |}
  end.
Proof.
  intros Hb Hv. unfold_entries. rewrite Hb, Hv. simpl.
  destruct (exec (cv_AlignMTB_process self v [])) as [e|out]; simpl;
    [reflexivity|].
  tidy. rewrite length_insert.
  destruct (cb_fun cb _ _); reflexivity.
Qed.

Lemma outputs_one (h0 h : heap) (tr : list event) {A} (n : native_call A)
    (a1 a2 : addr) (o : object) k p (args : list addr) :
  is_native o = true ->
  outputs {| st_heap := h0; st_trace := tr |}
          {| st_heap := h;
             st_trace := tr ++ [EvNative n; EvNew a1 o; EvNew a2 (O_Handle k p);
                                EvCallback 1 args] |} = [o].
Proof.
  intros Ho. unfold outputs.
  rewrite (since_app {| st_heap := h0; st_trace := tr |}). simpl.
  rewrite filter_cons_True by exact Ho.
  rewrite filter_cons_False by (simpl; discriminate). reflexivity.
Qed.

Lemma outputs_raised (h0 h : heap) (tr : list event) {A} (n : native_call A) :
  outputs {| st_heap := h0; st_trace := tr |}
          {| st_heap := h; st_trace := tr ++ [EvNative n] |} = [].
Proof.
  unfold outputs. rewrite (since_app {| st_heap := h0; st_trace := tr |}).
  reflexivity.
Qed.

Lemma cb_keeps_app {n} (cb : CvCallback n) args (h l : heap) a o :
  cb_keeps cb -> h !! a = Some (Some o) ->
  cb_heap (cb_fun cb args (h ++ l)) !! a = Some (Some o).
Proof.
  intros Hk Ha. apply Hk. rewrite lookup_app_l; [exact Ha|].
  eapply lookup_lt_Some, Ha.
Qed.

(** ** Ownership (C9, C3) *)

Lemma load_None_ge (h : heap) (a : addr) : (length h <= a)%nat -> load h a = None.
Proof. intros Hle. unfold load. rewrite lookup_ge_None_2 by exact Hle. reflexivity. Qed.

Lemma borrowed_through_refl (c : call) (s : state) : borrowed_through c s s.
Proof.
  split.
  - exists []. split; [symmetry; apply app_nil_r|]. intros a k p Hin. inversion Hin.
  - intros a o Ha. exists o. split; [exact Ha|]. split; [apply same_type_refl|].
    reflexivity.
Qed.

Lemma same_type_bufs_nil (o o' : object) :
  same_type o o' = true -> bufs_of o = [] -> o' = o -> bufs_of o' = [].
Proof. intros _ Hb ->. exact Hb. Qed.

Lemma borrowed_through_trans (c : call) (s1 s2 s3 : state) :
  borrowed_through c s1 s2 -> borrowed_through c s2 s3 -> borrowed_through c s1 s3.
Proof.
  intros [(e1 & Ht1 & Hn1) Hl1] [(e2 & Ht2 & Hn2) Hl2]. split.
  - exists (e1 ++ e2). split; [rewrite Ht2, Ht1, app_assoc; reflexivity|].
    intros a k p Hin. unfold new_events in Hin. rewrite omap_app in Hin.
    apply elem_of_app in Hin as [Hin|Hin]; [exact (Hn1 a k p Hin)|].
    specialize (Hn2 a k p Hin).
    destruct (load (st_heap s1) p) as [o|] eqn:Hp; [|reflexivity].
    apply load_Some in Hp. destruct (Hl1 p o Hp) as (o' & Hp' & _).
    apply load_Some in Hp'. congruence.
  - intros a o Ha. destruct (Hl1 a o Ha) as (o' & Ha' & Hty & Heq).
    destruct (Hl2 a o' Ha') as (o'' & Ha'' & Hty' & Heq').
    exists o''. split; [exact Ha''|]. split; [eapply same_type_trans; eassumption|].
    intros Hw Hb. specialize (Heq Hw Hb). subst o'. apply Heq'; assumption.
Qed.

Lemma delivery_points_fresh (c : call) (b : nat) news args :
  delivery c b news args ->
  forall a k p, (a, O_Handle k p) ∈ news -> (b <= p)%nat.
Proof.
  intros [o k0 Hc Hk|m1 m2 Hc|m1 m2 Hc] a k p Hin.
  - apply elem_of_cons in Hin as [Heq|Hin].
    + injection Heq as _ <-. destruct k0; discriminate Hk.
    + apply list_elem_of_singleton in Hin. injection Hin as _ _ ->. lia.
  - repeat (apply elem_of_cons in Hin as [Heq|Hin];
            [first [discriminate Heq | injection Heq as _ _ ->; lia]|]).
    inversion Hin.
  - repeat (apply elem_of_cons in Hin as [Heq|Hin];
            [first [discriminate Heq | injection Heq as _ _ ->; lia]|]).
    inversion Hin.
Qed.

Lemma borrow_step `{NativeLibrary} (c : call) (cb : CvCallback_1) (s : state) :
  valid_call c (st_heap s) -> cb_keeps cb ->
  exists st s', run c cb s = Returned st s' /\ borrowed_through c s s'.
Proof.
  intros [r Hr] Hk.
  destruct (run_ending c cb s r Hr)
    as [e He Hrun|h1 news args Hn (Hlen & Hlive & Hnopix & _) Hd Hrun];
    rewrite Hrun; eexists _, _; (split; [reflexivity|]).
  - split.
    + exists [EvNative (projT2 r)]. split; [reflexivity|].
      intros a k p Hin. inversion Hin.
    + intros a o Ha. exists o. split; [exact Ha|].
      split; [apply same_type_refl|reflexivity].
  - split.
    + eexists. split; [reflexivity|]. intros a k p Hin.
      rewrite new_events_delivery in Hin.
      apply load_None_ge. rewrite <- Hlen.
      eapply delivery_points_fresh; eassumption.
    + intros a o Ha. simpl.
      destruct (Hlive a o Ha) as (o' & Ha' & Hty). exists o'.
      split; [unfold heap_at_callback; apply cb_keeps_app; assumption|].
      split; [exact Hty|]. intros Hw Hb.
      specialize (Hnopix a o Ha Hw Hb). congruence.
Qed.

Lemma read_cvMat_live (h : heap) a m :
  read_cvMat h a = Some m -> exists o, h !! a = Some (Some o).
Proof. intros Hr. apply read_cvMat_Some in Hr. eauto. Qed.

Lemma read_vecMat_live (h : heap) a m :
  read_vecMat h a = Some m -> exists o, h !! a = Some (Some o).
Proof. intros Hr. apply read_vecMat_Some in Hr. eauto. Qed.

Lemma read_MergeMertens_live (h : heap) a m :
  read_MergeMertens h a = Some m -> exists o, h !! a = Some (Some o).
Proof. intros Hr. apply read_MergeMertens_Some in Hr. eauto. Qed.

Lemma read_AlignMTB_live (h : heap) a m :
  read_AlignMTB h a = Some m -> exists o, h !! a = Some (Some o).
Proof. intros Hr. apply read_AlignMTB_Some in Hr. eauto. Qed.

Ltac inputs_read Hr :=
  repeat match type of Hr with
  | context [read_cvMat ?h (ptr ?x)] =>
      destruct (read_cvMat h (ptr x)) eqn:?; simpl in Hr; [|discriminate Hr]
  | context [read_vecMat ?h (ptr ?x)] =>
      destruct (read_vecMat h (ptr x)) eqn:?; simpl in Hr; [|discriminate Hr]
  | context [read_MergeMertens ?h (ptr ?x)] =>
      destruct (read_MergeMertens h (ptr x)) eqn:?; simpl in Hr; [|discriminate Hr]
  | context [read_AlignMTB ?h (ptr ?x)] =>
      destruct (read_AlignMTB h (ptr x)) eqn:?; simpl in Hr; [|discriminate Hr]
  end.

Lemma valid_call_inputs `{NativeLibrary} (c : call) (h : heap) :
  valid_call c h ->
  forall a, a ∈ input_ptrs c -> exists o, h !! a = Some (Some o).
Proof.
  intros [r Hr] a Ha.
  destruct c; simpl in Hr, Ha; inputs_read Hr;
    repeat (apply elem_of_cons in Ha as [->|Ha];
            [first [ eapply read_cvMat_live; eassumption
                   | eapply read_vecMat_live; eassumption
                   | eapply read_MergeMertens_live; eassumption
                   | eapply read_AlignMTB_live; eassumption ]|]);
    inversion Ha.
Qed.

Lemma read_cvMat_retyped (h h' : heap) a m :
  read_cvMat h a = Some m -> retyped h h' a -> exists m', read_cvMat h' a = Some m'.
Proof.
  intros Hr (o & o' & Ho & Ho' & Hty). apply read_cvMat_Some in Hr.
  rewrite Hr in Ho. injection Ho as <-.
  destruct o'; try discriminate Hty. eexists. apply read_cvMat_Some, Ho'.
Qed.

Lemma read_vecMat_retyped (h h' : heap) a m :
  read_vecMat h a = Some m -> retyped h h' a -> exists m', read_vecMat h' a = Some m'.
Proof.
  intros Hr (o & o' & Ho & Ho' & Hty). apply read_vecMat_Some in Hr.
  rewrite Hr in Ho. injection Ho as <-.
  destruct o'; try discriminate Hty. eexists. apply read_vecMat_Some, Ho'.
Qed.

Lemma read_MergeMertens_retyped (h h' : heap) a m :
  read_MergeMertens h a = Some m -> retyped h h' a ->
  exists m', read_MergeMertens h' a = Some m'.
Proof.
  intros Hr (o & o' & Ho & Ho' & Hty). apply read_MergeMertens_Some in Hr.
  rewrite Hr in Ho. injection Ho as <-.
  destruct o'; try discriminate Hty. eexists. apply read_MergeMertens_Some, Ho'.
Qed.

Lemma read_AlignMTB_retyped (h h' : heap) a m :
  read_AlignMTB h a = Some m -> retyped h h' a ->
  exists m', read_AlignMTB h' a = Some m'.
Proof.
  intros Hr (o & o' & Ho & Ho' & Hty). apply read_AlignMTB_Some in Hr.
  rewrite Hr in Ho. injection Ho as <-.
  destruct o'; try discriminate Hty. eexists. apply read_AlignMTB_Some, Ho'.
Qed.

Ltac in_list :=
  repeat first [apply list_elem_of_here | apply list_elem_of_further].

Ltac reread Hty :=
  repeat match goal with
  | Hr : read_cvMat ?h (ptr ?x) = Some _ |- context [read_cvMat ?h' (ptr ?x)] =>
      let Hm := fresh "Hm" in
      destruct (read_cvMat_retyped h h' (ptr x) _ Hr
                  (Hty (ptr x) ltac:(simpl; in_list))) as [? Hm];
      rewrite Hm; clear Hr; simpl
  | Hr : read_vecMat ?h (ptr ?x) = Some _ |- context [read_vecMat ?h' (ptr ?x)] =>
      let Hm := fresh "Hm" in
      destruct (read_vecMat_retyped h h' (ptr x) _ Hr
                  (Hty (ptr x) ltac:(simpl; in_list))) as [? Hm];
      rewrite Hm; clear Hr; simpl
  | Hr : read_MergeMertens ?h (ptr ?x) = Some _
    |- context [read_MergeMertens ?h' (ptr ?x)] =>
      let Hm := fresh "Hm" in
      destruct (read_MergeMertens_retyped h h' (ptr x) _ Hr
                  (Hty (ptr x) ltac:(simpl; in_list))) as [? Hm];
      rewrite Hm; clear Hr; simpl
  | Hr : read_AlignMTB ?h (ptr ?x) = Some _
    |- context [read_AlignMTB ?h' (ptr ?x)] =>
      let Hm := fresh "Hm" in
      destruct (read_AlignMTB_retyped h h' (ptr x) _ Hr
                  (Hty (ptr x) ltac:(simpl; in_list))) as [? Hm];
      rewrite Hm; clear Hr; simpl
  end.

Lemma valid_call_retyped `{NativeLibrary} (c : call) (h h' : heap) :
  (forall a, a ∈ input_ptrs c -> retyped h h' a) ->
  valid_call c h -> valid_call c h'.
Proof.
  intros Hty [r Hr]. unfold valid_call.
  destruct c; simpl in Hr |- *; inputs_read Hr; reread Hty; eauto.
Qed.

Lemma borrowed_through_valid `{NativeLibrary} (c : call) (s s' : state) :
  borrowed_through c s s' -> valid_call c (st_heap s) -> valid_call c (st_heap s').
Proof.
  intros [_ Hl] Hv. apply (valid_call_retyped c (st_heap s)); [|exact Hv].
  intros a Ha. destruct (valid_call_inputs c _ Hv a Ha) as [o Ho].
  destruct (Hl a o Ho) as (o' & Ho' & Hty & _). exists o, o'. auto.
Qed.

(** The same call any number of times: a relation between states that
    every single call establishes holds from the first state to the
    last. *)
Lemma run_seq_invariant `{NativeLibrary} (c : call) (R : state -> state -> Prop) :
  (forall s, R s s) ->
  (forall s1 s2 s3, R s1 s2 -> R s2 s3 -> R s1 s3) ->
  (forall cb s, valid_call c (st_heap s) -> cb_keeps cb ->
     exists st s', run c cb s = Returned st s' /\ R s s' /\
                   valid_call c (st_heap s')) ->
  forall cbs, Forall (fun cb => cb_keeps cb) cbs ->
  forall s, valid_call c (st_heap s) ->
  exists sts s',
    run_seq c cbs s = Some (sts, s') /\ length sts = length cbs /\
    R s s' /\ valid_call c (st_heap s').
Proof.
  intros Hrefl Htrans Hstep cbs.
  induction 1 as [|cb cbs Hk _ IH]; intros s Hv.
  - exists [], s. repeat split; [apply Hrefl|exact Hv].
  - destruct (Hstep cb s Hv Hk) as (st & s1 & Hrun & HR1 & Hv1).
    destruct (IH s1 Hv1) as (sts & s2 & Hseq & Hlen & HR2 & Hv2).
    exists (st :: sts), s2. simpl. rewrite Hrun, Hseq.
    split; [reflexivity|]. split; [rewrite Hlen; reflexivity|].
    split; [eapply Htrans; eassumption|exact Hv2].
Qed.

Lemma is_algorithm_no_pixels (o : object) : is_algorithm o = true -> bufs_of o = [].
Proof. destruct o; simpl; congruence. Qed.

(** A native routine other than the pencil sketch writes no pixels: what
    it does not write through is as it was. *)
Lemma borrowed_intact_unwritten `{NativeLibrary} (c : call) (h h1 : heap) :
  writes_pixels c = false -> valid_call c h -> borrowed_intact c h h1 ->
  forall a o, h !! a = Some (Some o) -> a ∉ written_ptrs c ->
    h1 !! a = Some (Some o).
Proof.
  intros Hw [r Hr] (_ & Hlive & _ & Hbufs) a o Ha Hn.
  apply (Hbufs a o Ha Hn).
  - destruct c; simpl; try apply NoDup_nil_2; try apply NoDup_singleton;
      discriminate Hw.
  - intros w m Hin Hm.
    destruct c; simpl in Hin, Hr; try discriminate Hw; try (inversion Hin; fail);
      apply list_elem_of_singleton in Hin; subst w; inputs_read Hr.
    + match goal with Hx : read_MergeMertens _ _ = Some _ |- _ =>
        apply read_MergeMertens_Some in Hx;
        destruct (Hlive _ _ Hx) as (o' & Ho' & Hty) end.
      rewrite Hm in Ho'. injection Ho' as <-. discriminate Hty.
    + match goal with Hx : read_AlignMTB _ _ = Some _ |- _ =>
        apply read_AlignMTB_Some in Hx;
        destruct (Hlive _ _ Hx) as (o' & Ho' & Hty) end.
      rewrite Hm in Ho'. injection Ho' as <-. discriminate Hty.
Qed.

Lemma unwritten_step `{NativeLibrary} (c : call) (cb : CvCallback_1) (s : state)
    (st : Status) (s' : state) :
  valid_call c (st_heap s) -> cb_keeps cb -> run c cb s = Returned st s' ->
  forall a o, st_heap s !! a = Some (Some o) -> a ∉ written_ptrs c ->
    bufs_of o = [] \/ writes_pixels c = false ->
    st_heap s' !! a = Some (Some o).
Proof.
  intros Hv Hk Hrun a o Ha Hn Hcase. pose proof Hv as [r Hr].
  destruct (run_ending c cb s r Hr) as [e He Hrun'|h1 news args _ Hb Hd Hrun'];
    rewrite Hrun' in Hrun; injection Hrun as _ <-; [exact Ha|].
  simpl. unfold heap_at_callback. apply cb_keeps_app; [exact Hk|].
  destruct Hcase as [Hnp|Hw].
  - destruct Hb as (_ & _ & Hnopix & _). apply Hnopix; assumption.
  - eapply borrowed_intact_unwritten; eassumption.
Qed.

(** With a library whose [process] methods leave the algorithm object as
    they found it, no call changes an algorithm object. *)
Lemma algorithms_step `{NativeLibrary} (c : call) (cb : CvCallback_1) (s : state)
    (st : Status) (s' : state) :
  process_stateless ->
  valid_call c (st_heap s) -> cb_keeps cb -> run c cb s = Returned st s' ->
  forall a o, st_heap s !! a = Some (Some o) -> is_algorithm o = true ->
    st_heap s' !! a = Some (Some o).
Proof.
  intros [Hmm Hmtb] Hv Hk Hrun a o Ha Halg.
  destruct (decide (a ∈ written_ptrs c)) as [Hin|Hn].
  2:{ eapply unwritten_step; try eassumption. left.
      apply is_algorithm_no_pixels, Halg. }
  pose proof Hv as [r Hr]. destruct s as [h tr]. simpl in *.
  destruct c; simpl in Hin, Hr; try (inversion Hin; fail); inputs_read Hr.
  - (* MergeMertens_Process *)
    apply list_elem_of_singleton in Hin. subst a.
    match goal with
    | Hb : read_MergeMertens h _ = Some ?self, Hs : read_vecMat h _ = Some ?v |- _ =>
        rewrite (MergeMertens_Process_eval _ _ cb h tr self v Hb Hs) in Hrun;
        pose proof (Hmm self v) as Hst;
        apply read_MergeMertens_Some in Hb; rewrite Hb in Ha; injection Ha as <-;
        destruct (exec (cv_MergeMertens_process self v)) as [e|out];
        injection Hrun as _ <-; [exact Hb|];
        cbv zeta; simpl; apply cb_keeps_app; [exact Hk|];
        rewrite (Hst (fst out) (snd out)) by (destruct out; reflexivity);
        apply list_lookup_insert_eq; eapply lookup_lt_Some, Hb
    end.
  - (* AlignMTB_Process *)
    apply list_elem_of_singleton in Hin. subst a.
    match goal with
    | Hb : read_AlignMTB h _ = Some ?self, Hs : read_vecMat h _ = Some ?v |- _ =>
        rewrite (AlignMTB_Process_eval _ _ cb h tr self v Hb Hs) in Hrun;
        pose proof (Hmtb self v []) as Hst;
        apply read_AlignMTB_Some in Hb; rewrite Hb in Ha; injection Ha as <-;
        destruct (exec (cv_AlignMTB_process self v [])) as [e|out];
        injection Hrun as _ <-; [exact Hb|];
        cbv zeta; simpl; apply cb_keeps_app; [exact Hk|];
        rewrite (Hst (fst out) (snd out)) by (destruct out; reflexivity);
        apply list_lookup_insert_eq; eapply lookup_lt_Some, Hb
    end.
  - (* PencilSketch: the arrays written are matrices *)
    repeat (apply elem_of_cons in Hin as [->|Hin];
            [match goal with
             | Hx : read_cvMat h ?p = Some _, Ha : h !! ?p = Some (Some o) |- _ =>
                 apply read_cvMat_Some in Hx; rewrite Hx in Ha;
                 injection Ha as <-; discriminate Halg
             end|]).
    inversion Hin.
Qed.

(** What one call establishes between the state before and the state
    after. *)
Lemma borrow_step_full `{NativeLibrary} (c : call) (cb : CvCallback_1) (s : state) :
  valid_call c (st_heap s) -> cb_keeps cb ->
  exists st s',
    run c cb s = Returned st s' /\
    (borrowed_through c s s' /\
     (forall a o, st_heap s !! a = Some (Some o) -> a ∉ written_ptrs c ->
        bufs_of o = [] \/ writes_pixels c = false ->
        st_heap s' !! a = Some (Some o)) /\
     (process_stateless ->
      forall a o, st_heap s !! a = Some (Some o) -> is_algorithm o = true ->
        st_heap s' !! a = Some (Some o))) /\
    valid_call c (st_heap s').
Proof.
  intros Hv Hk. destruct (borrow_step c cb s Hv Hk) as (st & s' & Hrun & Hb).
  exists st, s'. split; [exact Hrun|]. split; [split; [exact Hb|split]|].
  - eapply unwritten_step; eassumption.
  - intros Hst. eapply algorithms_step; eassumption.
  - eapply borrowed_through_valid; eassumption.
Qed.


Lemma toy_process_stateless : @process_stateless toy.
Proof.
  split.
  - intros self src out self' He. simpl in He. destruct src; [discriminate|].
    injection He as _ <-. reflexivity.
  - intros self src dst out self' He. simpl in He. injection He as _ <-.
    reflexivity.
Qed.


Lemma release_frame (h : heap) (r p : addr) (k : kind) (o : object) :
  h !! r = Some (Some (O_Handle k p)) -> h !! p = Some (Some o) ->
  has_kind k o = true ->
  exists h', release r h = Some h' /\
             forall a, a <> r -> a <> p -> h' !! a = h !! a.
Proof.
  intros Hr Hp Hk. unfold release.
  rewrite (proj2 (load_Some h r _) Hr), (proj2 (load_Some h p _) Hp), Hk.
  eexists. split; [reflexivity|]. intros a Har Hap.
  rewrite !list_lookup_insert_ne by congruence. reflexivity.
Qed.

Lemma delivered_exact (s : state) (h : heap) {A} (n : native_call A)
    (news : list (addr * object)) (args : list addr) :
  delivered s {| st_heap := h;
                 st_trace := st_trace s ++
                   (EvNative n :: map ev_new news) ++ [EvCallback 1 args] |} = args.
Proof.
  unfold delivered. rewrite since_app, callback_events_delivery. simpl.
  apply app_nil_r.
Qed.

(** [PencilSketch_Async] in closed form.  The native routine leaves [a.1]
    in [dst1] and [a.2] in [dst2]; the first argument of the callback is a
    handle at [S p1] to a copy at [p1] of the header then found in [dst1],
    the second a handle at [S p2] to a copy at [p2] of the header found in
    [dst2]; which pair is allocated first depends on the order in which the
    two arguments are evaluated. *)
Lemma PencilSketch_eval `{NativeLibrary} (src dst1 dst2 : Mat)
    (sigma_s sigma_r shade_factor : float) (cb : CvCallback_1)
    (h : heap) (tr : list event) (m d1 d2 : cvMat) (a : cvMat * cvMat) :
  read_cvMat h (ptr src) = Some m ->
  read_cvMat h (ptr dst1) = Some d1 ->
  read_cvMat h (ptr dst2) = Some d2 ->
  exec (cv_pencilSketch m d1 d2 sigma_s sigma_r shade_factor) = inr a ->
  let h1 := written (ptr dst2) (snd a) (written (ptr dst1) (fst a) h) in
  let o1 := if decide (ptr dst1 = ptr dst2) then snd a
            else with_pixels_of (snd a) (fst a) in
  let o2 := snd a in
  let p1 := if args_right_to_left then S (S (length h)) else length h in
  let p2 := if args_right_to_left then length h else S (S (length h)) in
  let news := if args_right_to_left
              then [(p2, O_cvMat o2); (S p2, O_Handle K_cvMat p2);
                    (p1, O_cvMat o1); (S p1, O_Handle K_cvMat p1)]
              else [(p1, O_cvMat o1); (S p1, O_Handle K_cvMat p1);
                    (p2, O_cvMat o2); (S p2, O_Handle K_cvMat p2)] in
  let hc := h1 ++ map (fun p => Some (snd p)) news in
  h1 !! ptr dst1 = Some (Some (O_cvMat o1)) /\
  h1 !! ptr dst2 = Some (Some (O_cvMat o2)) /\
  run (PencilSketch src dst1 dst2 sigma_s sigma_r shade_factor) cb
      {| st_heap := h; st_trace := tr |} =
  Returned (cb_status 157 (cb_fun cb [S p1; S p2] hc))
    {| st_heap := cb_heap (cb_fun cb [S p1; S p2] hc);
       st_trace := tr ++
         (EvNative (cv_pencilSketch m d1 d2 sigma_s sigma_r shade_factor)
          :: map ev_new news) ++ [EvCallback 1 [S p1; S p2]] |}.
Proof.
  intros Hs H1 H2 He h1 o1 o2 p1 p2 news hc.
  pose proof (read_cvMat_written _ (ptr dst2) (ptr dst1) _ (snd a)
                (read_cvMat_written h (ptr dst1) (ptr dst1) d1 (fst a) H1)) as Ho1.
  pose proof (read_cvMat_written _ (ptr dst2) (ptr dst2) _ (snd a)
                (read_cvMat_written h (ptr dst1) (ptr dst2) d2 (fst a) H2)) as Ho2.
  fold h1 in Ho1, Ho2.
  rewrite (decide_True (P := ptr dst1 = ptr dst1)) in Ho1 by reflexivity.
  rewrite (decide_True (P := ptr dst2 = ptr dst2)) in Ho2 by reflexivity.
  fold o1 in Ho1. fold o2 in Ho2.
  assert (Hlen : length h1 = length h).
  { unfold h1. rewrite !length_written. reflexivity. }
  split; [apply read_cvMat_Some, Ho1|]. split; [apply read_cvMat_Some, Ho2|].
  unfold hc, news, p1, p2. clear hc news p1 p2.
  unfold_entries. rewrite Hs, H1, H2. simpl. rewrite He. simpl. fold h1.
  destruct args_right_to_left; simpl.
  - rewrite Ho2. simpl. tidy.
    rewrite (read_cvMat_app h1 _ _ _ Ho1). simpl. tidy.
    rewrite Hlen. replace (length h + 2)%nat with (S (S (length h))) by lia.
    destruct (cb_fun cb _ _); reflexivity.
  - rewrite Ho1. simpl. tidy.
    rewrite (read_cvMat_app h1 _ _ _ Ho2). simpl. tidy.
    rewrite Hlen. replace (length h + 2)%nat with (S (S (length h))) by lia.
    destruct (cb_fun cb _ _); reflexivity.
Qed.

(** The outputs of a pencil sketch are the caller's arrays under new
    headers: after a call in which the native routine succeeded, the
    first handle delivered holds a copy of the header in [dst1] and the
    second a copy of the header in [dst2], each at an address of its own. *)
Lemma PencilSketch_copies_dst `{NativeLibrary} (src dst1 dst2 : Mat)
    (sigma_s sigma_r shade_factor : float) (cb : CvCallback_1)
    (s : state) (st : Status) (s' : state) :
  let c := PencilSketch src dst1 dst2 sigma_s sigma_r shade_factor in
  valid_call c (st_heap s) -> cb_keeps cb ->
  run c cb s = Returned st s' -> delivered s s' <> [] ->
  exists r1 r2 p1 p2 m1 m2,
    delivered s s' = [r1; r2] /\
    st_heap s' !! r1 = Some (Some (O_Handle K_cvMat p1)) /\
    st_heap s' !! p1 = Some (Some (O_cvMat m1)) /\
    st_heap s' !! ptr dst1 = Some (Some (O_cvMat m1)) /\
    st_heap s' !! r2 = Some (Some (O_Handle K_cvMat p2)) /\
    st_heap s' !! p2 = Some (Some (O_cvMat m2)) /\
    st_heap s' !! ptr dst2 = Some (Some (O_cvMat m2)) /\
    p1 <> ptr dst1 /\ p2 <> ptr dst2 /\ p1 <> p2.
Proof.
  intros c [r Hr] Hk Hrun Hdel. destruct s as [h tr]. unfold c in *.
  simpl in Hr. inputs_read Hr.
  match goal with
  | Hs : read_cvMat h (ptr src) = Some ?m,
    H1 : read_cvMat h (ptr dst1) = Some ?d1,
    H2 : read_cvMat h (ptr dst2) = Some ?d2 |- _ =>
      destruct (exec (cv_pencilSketch m d1 d2 sigma_s sigma_r shade_factor))
        as [e|a] eqn:He;
      [ pose proof (run_spec (PencilSketch src dst1 dst2 sigma_s sigma_r shade_factor)
                      cb {| st_heap := h; st_trace := tr |}) as Hsp;
        simpl in Hsp; rewrite Hs, H1, H2 in Hsp; simpl in Hsp;
        rewrite He in Hsp
      | pose proof (PencilSketch_eval src dst1 dst2 sigma_s sigma_r shade_factor
                      cb h tr m d1 d2 a Hs H1 H2 He) as (Ho1 & Ho2 & Hev);
        pose proof (lookup_lt_Some _ _ _ (proj1 (read_cvMat_Some _ _ _) H1)) as Hlt1;
        pose proof (lookup_lt_Some _ _ _ (proj1 (read_cvMat_Some _ _ _) H2)) as Hlt2 ]
  end.
  - cbv [run] in Hrun. rewrite Hsp in Hrun. injection Hrun as _ <-. exfalso. apply Hdel.
    unfold delivered. rewrite since_log. reflexivity.
  - cbv zeta in Hev. rewrite Hev in Hrun. injection Hrun as _ <-.
    set (h1 := written (ptr dst2) (snd a) (written (ptr dst1) (fst a) h)) in *.
    assert (Hlen : length h1 = length h).
    { unfold h1. rewrite !length_written. reflexivity. }
    exists (S (if args_right_to_left then S (S (length h)) else length h)),
           (S (if args_right_to_left then length h else S (S (length h)))),
           (if args_right_to_left then S (S (length h)) else length h),
           (if args_right_to_left then length h else S (S (length h))),
           (if decide (ptr dst1 = ptr dst2) then snd a
            else with_pixels_of (snd a) (fst a)), (snd a).
    split; [apply (delivered_exact {| st_heap := h; st_trace := tr |})|].
    assert (Hnew : forall l (n : nat) (o : object),
              l !! n = Some (Some o) ->
              cb_heap (cb_fun cb
                [S (if args_right_to_left then S (S (length h)) else length h);
                 S (if args_right_to_left then length h else S (S (length h)))]
                (h1 ++ l)) !! (n + length h)%nat = Some (Some o)).
    { intros l n o Hl. apply Hk. rewrite lookup_app_r by lia.
      rewrite Hlen. replace (n + length h - length h)%nat with n by lia. exact Hl. }
    destruct args_right_to_left; simpl.
    + split; [apply (Hnew _ 3%nat); reflexivity|].
      split; [apply (Hnew _ 2%nat); reflexivity|].
      split; [apply cb_keeps_app; assumption|].
      split; [apply (Hnew _ 1%nat); reflexivity|].
      split; [apply (Hnew _ 0%nat); reflexivity|].
      split; [apply cb_keeps_app; assumption|]. lia.
    + split; [apply (Hnew _ 1%nat); reflexivity|].
      split; [apply (Hnew _ 0%nat); reflexivity|].
      split; [apply cb_keeps_app; assumption|].
      split; [apply (Hnew _ 3%nat); reflexivity|].
      split; [apply (Hnew _ 2%nat); reflexivity|].
      split; [apply cb_keeps_app; assumption|]. lia.
Qed.




(** ** The results of the native routine

    From here on the properties are about what the calls leave behind:
    which objects, with which contents, and how one call sets up the
    next. *)

(** The whole course of a call with one output in closed form: the heap
    after the native routine's writes, then the result and its handle
    structure, then the callback on the handle. *)
Lemma run_exact `{NativeLibrary} (c : call) (cb : CvCallback_1) (s : state)
    (r : native_req) :
  forwarded c (st_heap s) = Some r -> output_count c = 1%nat ->
  match exec (projT2 r) with
  | inl e =>
      run c cb s =
      Returned (Some (status_of_exn (catch_line c) e)) (log (EvNative (projT2 r)) s)
  | inr a =>
      let h1 := write_back (written_ptrs c) (native_writes (projT2 r) a) (st_heap s) in
      let os := result_objects (projT2 r) a in
      run c cb s =
      WRAP (catch_line c) (invoke cb (handles_at (length h1) os))
        {| st_heap := h1 ++ map (fun p => Some (snd p)) (layout (length h1) os);
           st_trace := st_trace s ++
                       EvNative (projT2 r) :: map ev_new (layout (length h1) os) |}
  end.
Proof.
  intros Hr Hd. destruct s as [h tr].
  destruct c; simpl in Hr; try discriminate Hd; inputs_read Hr; injection Hr as <-;
    cbn [projT2 req];
    cbv [h_default templateWindowSize_default searchWindowSize_default];
    match goal with |- context [exec ?n] => destruct (exec n) as [e|a] eqn:He end.
  all: unfold_entries; cbv [h_default templateWindowSize_default searchWindowSize_default].
  all: repeat match goal with Hx : _ = Some _ |- _ => rewrite Hx end; simpl.
  all: rewrite He; simpl; tidy; reflexivity.
Qed.

Lemma result_objects_native {A} (n : native_call A) (a : A) :
  Forall (fun o => is_native o = true) (result_objects n a).
Proof. destruct n; simpl; repeat constructor. Qed.

Lemma layout_natives (b : nat) (os : list object) :
  Forall (fun o => is_native o = true) os ->
  filter (fun o => is_native o = true) (map snd (layout b os)) = os.
Proof.
  intros Hn. revert b. induction Hn as [|o os Ho _ IH]; intros b; [reflexivity|].
  simpl. rewrite filter_cons_True by exact Ho.
  rewrite filter_cons_False by (simpl; discriminate). rewrite IH. reflexivity.
Qed.

Lemma layout_wraps (h1 : heap) (os : list object) :
  Forall2 (wraps (h1 ++ map (fun p => Some (snd p)) (layout (length h1) os)))
    (handles_at (length h1) os) os.
Proof.
  revert h1. induction os as [|o os IH]; intros h1; [constructor|].
  simpl.
  replace (h1 ++ Some o :: Some (O_Handle (kind_of o) (length h1))
              :: map (fun p => Some (snd p)) (layout (S (S (length h1))) os))
    with ((h1 ++ [Some o; Some (O_Handle (kind_of o) (length h1))]) ++
          map (fun p => Some (snd p))
            (layout (length (h1 ++ [Some o; Some (O_Handle (kind_of o) (length h1))])) os)).
  2:{ rewrite <- app_assoc, length_app. simpl.
      replace (length h1 + 2)%nat with (S (S (length h1))) by lia. reflexivity. }
  constructor.
  - exists (length h1). split.
    + rewrite lookup_app_l by (rewrite length_app; simpl; lia).
      rewrite lookup_app_r by lia.
      replace (S (length h1) - length h1)%nat with 1%nat by lia. reflexivity.
    + rewrite lookup_app_l by (rewrite length_app; simpl; lia).
      rewrite lookup_app_r by lia. rewrite Nat.sub_diag. reflexivity.
  - specialize (IH (h1 ++ [Some o; Some (O_Handle (kind_of o) (length h1))])).
    rewrite length_app in IH |- *. simpl in IH |- *.
    replace (length h1 + 2)%nat with (S (S (length h1))) in IH |- * by lia.
    exact IH.
Qed.

Lemma wraps_kept {n} (cb : CvCallback n) args (h : heap) rh o :
  cb_keeps cb -> wraps h rh o -> wraps (cb_heap (cb_fun cb args h)) rh o.
Proof. intros Hk (p & Hr & Hp). exists p. split; apply Hk; assumption. Qed.

Lemma run_returned_exact `{NativeLibrary} (c : call) (cb : CvCallback_1)
    (s : state) (r : native_req) (a : projT1 r) :
  forwarded c (st_heap s) = Some r -> output_count c = 1%nat ->
  exec (projT2 r) = inr a ->
  let h1 := write_back (written_ptrs c) (native_writes (projT2 r) a) (st_heap s) in
  let os := result_objects (projT2 r) a in
  let hc := h1 ++ map (fun p => Some (snd p)) (layout (length h1) os) in
  let args := handles_at (length h1) os in
  run c cb s =
  Returned (cb_status (catch_line c) (cb_fun cb args hc))
    {| st_heap := cb_heap (cb_fun cb args hc);
       st_trace := st_trace s ++
                   (EvNative (projT2 r) :: map ev_new (layout (length h1) os)) ++
                   [EvCallback 1 args] |}.
Proof.
  intros Hr Hd He. pose proof (run_exact c cb s r Hr Hd) as Hrun.
  rewrite He in Hrun. cbv zeta in Hrun |- *. rewrite Hrun, WRAP_invoke. simpl.
  rewrite <- app_assoc. reflexivity.
Qed.

Lemma run_raised_exact `{NativeLibrary} (c : call) (cb : CvCallback_1)
    (s : state) (r : native_req) (e : exn) :
  forwarded c (st_heap s) = Some r -> exec (projT2 r) = inl e ->
  run c cb s =
  Returned (Some (status_of_exn (catch_line c) e)) (log (EvNative (projT2 r)) s).
Proof.
  intros Hr He. pose proof (run_spec c cb s) as Hrun.
  rewrite Hr, He in Hrun. exact Hrun.
Qed.

Lemma outputs_exact (s : state) (h : heap) {A} (n : native_call A) (a : A)
    (b : nat) (args : list addr) :
  outputs s {| st_heap := h;
               st_trace := st_trace s ++
                 (EvNative n :: map ev_new (layout b (result_objects n a))) ++
                 [EvCallback 1 args] |} = result_objects n a.
Proof.
  unfold outputs. rewrite since_app, new_events_delivery.
  apply layout_natives, result_objects_native.
Qed.

(** What is delivered is what the native routine returned.  For every
    entry point with one output (all but PencilSketch): the one native
    object the call creates is the result of the native routine,
    unchanged; when the routine raises, nothing is created and nothing
    delivered.  If the callback leaves live objects alone, then after the
    call the handle passed to the callback is a live handle structure of
    the matching kind around that result. *)
Theorem delivered_are_native_results `{NativeLibrary}
    (c : call) (cb : CvCallback_1) (s : state) (r : native_req) :
  forwarded c (st_heap s) = Some r -> output_count c = 1%nat ->
  exists st s',
    run c cb s = Returned st s' /\
    match exec (projT2 r) with
    | inl _ => outputs s s' = [] /\ delivered s s' = []
    | inr a =>
        outputs s s' = result_objects (projT2 r) a /\
        (cb_keeps cb ->
         Forall2 (wraps (st_heap s')) (delivered s s') (result_objects (projT2 r) a))
    end.
Proof.
  intros Hr Hd. destruct (exec (projT2 r)) as [e|a] eqn:He.
  - rewrite (run_raised_exact c cb s r e Hr He). eexists _, _.
    split; [reflexivity|]. unfold outputs, delivered. rewrite since_log.
    split; reflexivity.
  - rewrite (run_returned_exact c cb s r a Hr Hd He). eexists _, _.
    split; [reflexivity|]. rewrite outputs_exact, delivered_exact.
    split; [reflexivity|]. intros Hk.
    eapply Forall2_impl; [apply layout_wraps|].
    intros rh o Hw. apply wraps_kept; assumption.
Qed.

Lemma delivered_are_native_results_witness :
  let c := MergeMertens_Process h_fuse h_seq in
  let n := cv_MergeMertens_process
             {| contrast_weight := 0x3F800000; saturation_weight := 0x3F800000;
                exposure_weight := 0 |}
             [gray 2 10; gray 2 20; gray 2 30] in
  exists st s',
    @run toy c cb_quiet state0 = Returned st s' /\
    match @exec toy _ n with
    | inl _ => outputs state0 s' = [] /\ delivered state0 s' = []
    | inr a =>
        outputs state0 s' = result_objects n a /\
        (cb_keeps cb_quiet ->
         Forall2 (wraps (st_heap s')) (delivered state0 s') (result_objects n a))
    end.
Proof.
  apply (@delivered_are_native_results toy (MergeMertens_Process h_fuse h_seq)
           cb_quiet state0
           (req (cv_MergeMertens_process
                   {| contrast_weight := 0x3F800000;
                      saturation_weight := 0x3F800000;
                      exposure_weight := 0 |}
                   [gray 2 10; gray 2 20; gray 2 30]))).
  - reflexivity.
  - reflexivity.
Defined.

(** ** The output arrays of PencilSketch *)

(** [PencilSketch_Async] overwrites the caller's [dst1] and [dst2].  After
    a call in which the native routine succeeds with the pair [a] (and a
    callback that leaves live objects alone), the header in [dst2] is the
    second result, and the header in [dst1] is the first result, seen with
    the pixels of the second if the two are on the same buffer (it is the
    second result if [dst1] and [dst2] are the same object).  The first
    handle delivered wraps a header equal to the one in [dst1] and the
    second a header equal to the one in [dst2], whichever of the two was
    allocated first. *)
Theorem PencilSketch_overwrites_dst `{NativeLibrary} (src dst1 dst2 : Mat)
    (sigma_s sigma_r shade_factor : float) (cb : CvCallback_1) (s : state)
    (m d1 d2 : cvMat) (a : cvMat * cvMat) :
  let c := PencilSketch src dst1 dst2 sigma_s sigma_r shade_factor in
  read_cvMat (st_heap s) (ptr src) = Some m ->
  read_cvMat (st_heap s) (ptr dst1) = Some d1 ->
  read_cvMat (st_heap s) (ptr dst2) = Some d2 ->
  exec (cv_pencilSketch m d1 d2 sigma_s sigma_r shade_factor) = inr a ->
  cb_keeps cb ->
  exists st s' r1 r2 m1,
    run c cb s = Returned st s' /\
    delivered s s' = [r1; r2] /\
    st_heap s' !! ptr dst1 = Some (Some (O_cvMat m1)) /\
    st_heap s' !! ptr dst2 = Some (Some (O_cvMat (snd a))) /\
    wraps (st_heap s') r1 (O_cvMat m1) /\
    wraps (st_heap s') r2 (O_cvMat (snd a)) /\
    (ptr dst1 = ptr dst2 -> m1 = snd a) /\
    (ptr dst1 <> ptr dst2 -> m1 = with_pixels_of (snd a) (fst a)) /\
    (ptr dst1 <> ptr dst2 -> buf (fst a) <> buf (snd a) -> m1 = fst a).
Proof.
  intros c Hs H1 H2 He Hk. destruct s as [h tr]. simpl in Hs, H1, H2.
  destruct (PencilSketch_eval src dst1 dst2 sigma_s sigma_r shade_factor cb
              h tr m d1 d2 a Hs H1 H2 He) as (Ho1 & Ho2 & Hrun).
  cbv zeta in Hrun.
  assert (Hv : valid_call c h).
  { eexists. unfold c. simpl. rewrite Hs, H1, H2. reflexivity. }
  pose proof Hrun as Hrun'.
  eapply (PencilSketch_copies_dst src dst1 dst2 sigma_s sigma_r shade_factor cb
            {| st_heap := h; st_trace := tr |}) in Hrun'; [|exact Hv|exact Hk|].
  2:{ rewrite (delivered_exact {| st_heap := h; st_trace := tr |}). discriminate. }
  destruct Hrun' as (r1 & r2 & p1 & p2 & m1 & m2 & Hdel & Hr1 & Hp1 & Hd1 &
                     Hr2 & Hp2 & Hd2 & _).
  unfold c. rewrite Hrun.
  simpl in Hd1, Hd2, Hp1, Hp2, Hr1, Hr2.
  pose proof Hd1 as Hx1. pose proof Hd2 as Hx2.
  rewrite (cb_keeps_app cb _ _ _ _ _ Hk Ho1) in Hx1.
  rewrite (cb_keeps_app cb _ _ _ _ _ Hk Ho2) in Hx2.
  injection Hx1 as Hx1. injection Hx2 as Hx2. subst m2.
  eexists _, _, r1, r2, m1. split; [reflexivity|]. split; [exact Hdel|].
  split; [exact Hd1|]. split; [exact Hd2|].
  split; [exists p1; split; assumption|].
  split; [exists p2; split; assumption|].
  rewrite <- Hx1. split; [|split].
  - intros Heq. rewrite decide_True by exact Heq. reflexivity.
  - intros Hne. rewrite decide_False by exact Hne. reflexivity.
  - intros Hne Hb. rewrite decide_False by exact Hne.
    apply with_pixels_of_other. exact Hb.
Qed.

Lemma PencilSketch_overwrites_dst_witness :
  let c := PencilSketch h_src h_dst h_mask 0x42700000 0x3D8F5C29 0x3D4CCCCD in
  let a := ({| rows := 2; cols := 2; mtype := 0; data := [200; 200; 200; 200];
               buf := 201 |},
            {| rows := 2; cols := 2; mtype := 0; data := [200; 200; 200; 200];
               buf := 1 |}) in
  exists st s' r1 r2 m1,
    @run toy c cb_quiet state0 = Returned st s' /\
    delivered state0 s' = [r1; r2] /\
    st_heap s' !! ptr h_dst = Some (Some (O_cvMat m1)) /\
    st_heap s' !! ptr h_mask = Some (Some (O_cvMat (snd a))) /\
    wraps (st_heap s') r1 (O_cvMat m1) /\
    wraps (st_heap s') r2 (O_cvMat (snd a)) /\
    (ptr h_dst = ptr h_mask -> m1 = snd a) /\
    (ptr h_dst <> ptr h_mask -> m1 = with_pixels_of (snd a) (fst a)) /\
    (ptr h_dst <> ptr h_mask -> buf (fst a) <> buf (snd a) -> m1 = fst a).
Proof.
  apply (@PencilSketch_overwrites_dst toy h_src h_dst h_mask
           0x42700000 0x3D8F5C29 0x3D4CCCCD cb_quiet state0
           (gray 2 200) (gray 4 50) (gray 2 1)).
  - reflexivity.
  - reflexivity.
  - reflexivity.
  - reflexivity.
  - intros args h a o Ha. exact Ha.
Defined.

(** ** What a call leaves alone *)

(** A call changes no object it is not told to write, pixels shared with
    an output array of a pencil sketch apart.  An object that is live
    before the call, whether or not a handle to it was passed, and that
    the native routine does not write through (only the output arrays of
    PencilSketch and the receiver of a Process call are written) is live
    and identical after the call, whatever the status, in each of three
    cases: it holds no pixels; the call is not a pencil sketch; or the
    two output arrays are different objects and the object is on the
    buffer of neither of the headers the call leaves in them. *)
Theorem unwritten_objects_unchanged `{NativeLibrary}
    (c : call) (cb : CvCallback_1) (s : state) :
  valid_call c (st_heap s) -> cb_keeps cb ->
  exists st s',
    run c cb s = Returned st s' /\
    forall a o, st_heap s !! a = Some (Some o) -> a ∉ written_ptrs c ->
      bufs_of o = [] \/ writes_pixels c = false \/
      (NoDup (written_ptrs c) /\
       forall w m, w ∈ written_ptrs c ->
         st_heap s' !! w = Some (Some (O_cvMat m)) -> buf m ∉ bufs_of o) ->
      st_heap s' !! a = Some (Some o).
Proof.
  intros Hv Hk. pose proof Hv as [r Hr].
  destruct (run c cb s) as [st s'|] eqn:Hrun.
  2:{ destruct (run_ending c cb s r Hr) as [e _ Hx|h1 news args _ _ _ Hx];
        rewrite Hx in Hrun; discriminate Hrun. }
  exists st, s'. split; [reflexivity|]. intros a o Ha Hn [Hnp|[Hw|[Hnd Hbufs]]].
  - eapply unwritten_step; eauto.
  - eapply unwritten_step; eauto.
  - destruct (run_ending c cb s r Hr) as [e _ Hx|h1 news args _ Hb _ Hx];
      rewrite Hx in Hrun; injection Hrun as _ <-; [exact Ha|].
    simpl in *. unfold heap_at_callback in *.
    apply cb_keeps_app; [exact Hk|].
    destruct Hb as (_ & _ & _ & Hshare). apply (Hshare a o Ha Hn Hnd).
    intros w m Hin Hm. apply (Hbufs w m Hin).
    apply cb_keeps_app; assumption.
Qed.

Lemma unwritten_objects_unchanged_witness :
  let c := PencilSketch h_src h_dst h_mask 0x42700000 0x3D8F5C29 0x3D4CCCCD in
  exists st s',
    @run toy c cb_raising state0 = Returned st s' /\
    forall a o, st_heap state0 !! a = Some (Some o) -> a ∉ written_ptrs c ->
      bufs_of o = [] \/ writes_pixels c = false \/
      (NoDup (written_ptrs c) /\
       forall w m, w ∈ written_ptrs c ->
         st_heap s' !! w = Some (Some (O_cvMat m)) -> buf m ∉ bufs_of o) ->
      st_heap s' !! a = Some (Some o).
Proof.
  apply (@unwritten_objects_unchanged toy
           (PencilSketch h_src h_dst h_mask 0x42700000 0x3D8F5C29 0x3D4CCCCD)
           cb_raising state0).
  - eexists. reflexivity.
  - intros args h a o Ha. exact Ha.
Defined.

(** No call invalidates a handle.  If a second call, to any entry point
    and with any handles, is well formed before a call, it is still well
    formed after it: the first call, whatever it returns, leaves every
    handle of the second leading to a live object of its type. *)
Theorem other_calls_stay_valid `{NativeLibrary}
    (c c2 : call) (cb : CvCallback_1) (s : state) :
  valid_call c (st_heap s) -> cb_keeps cb -> valid_call c2 (st_heap s) ->
  exists st s', run c cb s = Returned st s' /\ valid_call c2 (st_heap s').
Proof.
  intros Hv Hk Hv2. destruct (borrow_step c cb s Hv Hk) as (st & s' & Hrun & _ & Hl).
  exists st, s'. split; [exact Hrun|].
  apply (valid_call_retyped c2 (st_heap s)); [|exact Hv2].
  intros a Ha. destruct (valid_call_inputs c2 _ Hv2 a Ha) as [o Ho].
  destruct (Hl a o Ho) as (o' & Ho' & Hty & _). exists o, o'. auto.
Qed.

Lemma other_calls_stay_valid_witness :
  let c := PencilSketch h_src h_dst h_mask 0x42700000 0x3D8F5C29 0x3D4CCCCD in
  let c2 := SeamlessClone h_src h_dst h_mask {| x := 1; y := 1 |} 1 in
  exists st s',
    @run toy c cb_quiet state0 = Returned st s' /\ @valid_call toy c2 (st_heap s').
Proof.
  apply (@other_calls_stay_valid toy
           (PencilSketch h_src h_dst h_mask 0x42700000 0x3D8F5C29 0x3D4CCCCD)
           (SeamlessClone h_src h_dst h_mask {| x := 1; y := 1 |} 1)
           cb_quiet state0).
  - eexists. reflexivity.
  - intros args h a o Ha. exact Ha.
  - eexists. reflexivity.
Defined.

(** ** Allocation *)

Lemma has_kind_native (k : kind) (o : object) : has_kind k o = true -> is_native o = true.
Proof. destruct k, o; simpl; congruence. Qed.

(** Nothing is allocated that is not handed over.  In every call the
    handle structures the entry point allocates are exactly the handles it
    passes to the callback (for PencilSketch, whose two handles may be
    allocated in either order, up to that order); it allocates one native
    object per delivered handle and nothing else (two allocations per
    output on the success path, none when the native routine raises). *)
Theorem allocated_handles_are_delivered `{NativeLibrary}
    (c : call) (cb : CvCallback_1) (s : state) :
  valid_call c (st_heap s) ->
  exists st s',
    run c cb s = Returned st s' /\
    allocated_handles s s' ≡ₚ delivered s s' /\
    (output_count c = 1%nat -> allocated_handles s s' = delivered s s') /\
    length (outputs s s') = length (delivered s s') /\
    length (new_events (since s s')) = (2 * length (delivered s s'))%nat.
Proof.
  intros [r Hr].
  destruct (run_ending c cb s r Hr) as [e He Hrun|h1 news args Hn Hb Hd Hrun];
    rewrite Hrun; eexists _, _; (split; [reflexivity|]);
    unfold allocated_handles, outputs, delivered.
  - rewrite since_log. split; [reflexivity|]. repeat split.
  - rewrite since_app, callback_events_delivery, new_events_delivery. simpl.
    rewrite app_nil_r.
    destruct Hd as [o k Hc Hko|m1 m2 Hc|m1 m2 Hc].
    + apply has_kind_native in Hko. simpl.
      rewrite (filter_cons_False (fun p => is_native (snd p) = false) (_, o))
        by (simpl; congruence).
      rewrite (filter_cons_True (fun o => is_native o = true) o) by exact Hko.
      split; [reflexivity|]. repeat split.
    + split; [reflexivity|]. repeat split.
    + split; [apply Permutation_swap|]. split; [intros Hc1; congruence|].
      repeat split.
Qed.

Lemma allocated_handles_are_delivered_witness :
  let c := PencilSketch h_src h_dst h_mask 0x42700000 0x3D8F5C29 0x3D4CCCCD in
  exists st s',
    @run toy c cb_quiet state0 = Returned st s' /\
    allocated_handles state0 s' ≡ₚ delivered state0 s' /\
    (output_count c = 1%nat -> allocated_handles state0 s' = delivered state0 s') /\
    length (outputs state0 s') = length (delivered state0 s') /\
    length (new_events (since state0 s')) = (2 * length (delivered state0 s'))%nat.
Proof.
  apply (@allocated_handles_are_delivered toy
           (PencilSketch h_src h_dst h_mask 0x42700000 0x3D8F5C29 0x3D4CCCCD)
           cb_quiet state0).
  eexists. reflexivity.
Defined.

(** ** From creation to processing *)

(** The fusion algorithm's life cycle.  [MergeMertens_CreateWithParams]
    (or [MergeMertens_Create], which passes the library's defaults)
    delivers one handle; it is a [MergeMertens] handle structure, and a
    [MergeMertens_Process] call on the handle it holds is well formed and
    invokes [process] on exactly the algorithm object that
    [cv::createMergeMertens] returned for those weights, with the given
    sequence.  That call returns a status and creates, as its only output,
    the matrix that [process] produced (nothing if [process] raises). *)
Theorem MergeMertens_Create_then_Process `{NativeLibrary}
    (c : call) (cw sw ew : float) (src : VecMat) (cb1 cb2 : CvCallback_1)
    (s : state) (a : cvMergeMertens) (v : list cvMat) :
  c = MergeMertens_CreateWithParams cw sw ew \/
  (c = MergeMertens_Create /\ cw = mertens_contrast_weight /\
   sw = mertens_saturation_weight /\ ew = mertens_exposure_weight) ->
  exec (cv_createMergeMertens cw sw ew) = inr a ->
  read_vecMat (st_heap s) (ptr src) = Some v ->
  cb_keeps cb1 ->
  exists st1 s1 r p,
    run c cb1 s = Returned st1 s1 /\
    delivered s s1 = [r] /\
    load (st_heap s1) r = Some (O_Handle K_MergeMertens p) /\
    forwarded (MergeMertens_Process {| ptr := p |} src) (st_heap s1)
      = Some (req (cv_MergeMertens_process a v)) /\
    exists st2 s2,
      run (MergeMertens_Process {| ptr := p |} src) cb2 s1 = Returned st2 s2 /\
      outputs s1 s2 =
        match exec (cv_MergeMertens_process a v) with
        | inl _ => []
        | inr out => [O_cvMat (fst out)]
        end.
Proof.
  intros Hc He Hv Hk.
  assert (Hf : forwarded c (st_heap s) = Some (req (cv_createMergeMertens cw sw ew))).
  { destruct Hc as [->|(-> & -> & -> & ->)]; reflexivity. }
  assert (Hd : output_count c = 1%nat) by (destruct Hc as [->|[-> _]]; reflexivity).
  assert (Hw : written_ptrs c = []) by (destruct Hc as [->|[-> _]]; reflexivity).
  pose proof (run_returned_exact c cb1 s (req (cv_createMergeMertens cw sw ew)) a
                Hf Hd He) as Hrun.
  cbn [projT2 req] in Hrun. rewrite Hw in Hrun. simpl in Hrun.
  set (h := st_heap s) in *.
  set (hc := h ++ [Some (O_MergeMertens a); Some (O_Handle K_MergeMertens (length h))]) in *.
  set (h' := cb_heap (cb_fun cb1 [S (length h)] hc)) in *.
  assert (Hr : h' !! S (length h) = Some (Some (O_Handle K_MergeMertens (length h)))).
  { apply Hk. unfold hc. rewrite lookup_app_r by lia.
    replace (S (length h) - length h)%nat with 1%nat by lia. reflexivity. }
  assert (Hp : read_MergeMertens h' (length h) = Some a).
  { apply read_MergeMertens_Some, Hk. unfold hc. rewrite lookup_app_r by lia.
    rewrite Nat.sub_diag. reflexivity. }
  assert (Hv' : read_vecMat h' (ptr src) = Some v).
  { apply read_vecMat_Some, cb_keeps_app; [exact Hk|]. apply read_vecMat_Some, Hv. }
  rewrite Hrun. eexists _, _, (S (length h)), (length h).
  split; [reflexivity|].
  split; [exact (delivered_exact s h' (cv_createMergeMertens cw sw ew)
                   [(length h, O_MergeMertens a);
                    (S (length h), O_Handle K_MergeMertens (length h))]
                   [S (length h)])|].
  split; [apply load_Some, Hr|].
  assert (Hf2 : forwarded (MergeMertens_Process {| ptr := length h |} src) h'
                = Some (req (cv_MergeMertens_process a v))).
  { simpl. rewrite Hp, Hv'. reflexivity. }
  split; [exact Hf2|].
  destruct (exec (cv_MergeMertens_process a v)) as [e|out] eqn:He2.
  - rewrite (run_raised_exact _ cb2 {| st_heap := h'; st_trace := _ |} _ e Hf2 He2).
    eexists _, _. split; [reflexivity|]. unfold outputs. rewrite since_log.
    reflexivity.
  - rewrite (run_returned_exact _ cb2 {| st_heap := h'; st_trace := _ |}
               (req (cv_MergeMertens_process a v)) out Hf2 eq_refl He2).
    eexists _, _. split; [reflexivity|].
    apply (outputs_exact {| st_heap := h'; st_trace := _ |}).
Qed.

Lemma MergeMertens_Create_then_Process_witness :
  let a := {| contrast_weight := 0x3F800000; saturation_weight := 0x3F800000;
              exposure_weight := 0 |} in
  let v := [gray 2 10; gray 2 20; gray 2 30] in
  exists st1 s1 r p,
    @run toy MergeMertens_Create cb_quiet state0 = Returned st1 s1 /\
    delivered state0 s1 = [r] /\
    load (st_heap s1) r = Some (O_Handle K_MergeMertens p) /\
    @forwarded toy (MergeMertens_Process {| ptr := p |} h_seq) (st_heap s1)
      = Some (req (cv_MergeMertens_process a v)) /\
    exists st2 s2,
      @run toy (MergeMertens_Process {| ptr := p |} h_seq) cb_raising s1
        = Returned st2 s2 /\
      outputs s1 s2 =
        match @exec toy _ (cv_MergeMertens_process a v) with
        | inl _ => []
        | inr out => [O_cvMat (fst out)]
        end.
Proof.
  apply (@MergeMertens_Create_then_Process toy MergeMertens_Create
           0x3F800000 0x3F800000 0 h_seq cb_quiet cb_raising state0).
  - right. repeat split.
  - reflexivity.
  - reflexivity.
  - intros args h a o Ha. exact Ha.
Defined.

(** The alignment algorithm's life cycle, in the same way:
    [AlignMTB_CreateWithParams] (or [AlignMTB_Create] with the library's
    defaults) delivers one [AlignMTB] handle structure; [AlignMTB_Process]
    on the handle it holds is well formed and invokes [process] on the
    object [cv::createAlignMTB] returned, with the given sequence and an
    empty output vector, and creates as its only output the sequence that
    [process] produced. *)
Theorem AlignMTB_Create_then_Process `{NativeLibrary}
    (c : call) (mb er : Z) (ct : bool) (src : VecMat) (cb1 cb2 : CvCallback_1)
    (s : state) (a : cvAlignMTB) (v : list cvMat) :
  c = AlignMTB_CreateWithParams mb er ct \/
  (c = AlignMTB_Create /\ mb = mtb_max_bits /\ er = mtb_exclude_range /\
   ct = mtb_cut) ->
  exec (cv_createAlignMTB mb er ct) = inr a ->
  read_vecMat (st_heap s) (ptr src) = Some v ->
  cb_keeps cb1 ->
  exists st1 s1 r p,
    run c cb1 s = Returned st1 s1 /\
    delivered s s1 = [r] /\
    load (st_heap s1) r = Some (O_Handle K_AlignMTB p) /\
    forwarded (AlignMTB_Process {| ptr := p |} src) (st_heap s1)
      = Some (req (cv_AlignMTB_process a v [])) /\
    exists st2 s2,
      run (AlignMTB_Process {| ptr := p |} src) cb2 s1 = Returned st2 s2 /\
      outputs s1 s2 =
        match exec (cv_AlignMTB_process a v []) with
        | inl _ => []
        | inr out => [O_vecMat (fst out)]
        end.
Proof.
  intros Hc He Hv Hk.
  assert (Hf : forwarded c (st_heap s) = Some (req (cv_createAlignMTB mb er ct))).
  { destruct Hc as [->|(-> & -> & -> & ->)]; reflexivity. }
  assert (Hd : output_count c = 1%nat) by (destruct Hc as [->|[-> _]]; reflexivity).
  assert (Hw : written_ptrs c = []) by (destruct Hc as [->|[-> _]]; reflexivity).
  pose proof (run_returned_exact c cb1 s (req (cv_createAlignMTB mb er ct)) a
                Hf Hd He) as Hrun.
  cbn [projT2 req] in Hrun. rewrite Hw in Hrun. simpl in Hrun.
  set (h := st_heap s) in *.
  set (hc := h ++ [Some (O_AlignMTB a); Some (O_Handle K_AlignMTB (length h))]) in *.
  set (h' := cb_heap (cb_fun cb1 [S (length h)] hc)) in *.
  assert (Hr : h' !! S (length h) = Some (Some (O_Handle K_AlignMTB (length h)))).
  { apply Hk. unfold hc. rewrite lookup_app_r by lia.
    replace (S (length h) - length h)%nat with 1%nat by lia. reflexivity. }
  assert (Hp : read_AlignMTB h' (length h) = Some a).
  { apply read_AlignMTB_Some, Hk. unfold hc. rewrite lookup_app_r by lia.
    rewrite Nat.sub_diag. reflexivity. }
  assert (Hv' : read_vecMat h' (ptr src) = Some v).
  { apply read_vecMat_Some, cb_keeps_app; [exact Hk|]. apply read_vecMat_Some, Hv. }
  rewrite Hrun. eexists _, _, (S (length h)), (length h).
  split; [reflexivity|].
  split; [exact (delivered_exact s h' (cv_createAlignMTB mb er ct)
                   [(length h, O_AlignMTB a);
                    (S (length h), O_Handle K_AlignMTB (length h))]
                   [S (length h)])|].
  split; [apply load_Some, Hr|].
  assert (Hf2 : forwarded (AlignMTB_Process {| ptr := length h |} src) h'
                = Some (req (cv_AlignMTB_process a v []))).
  { simpl. rewrite Hp, Hv'. reflexivity. }
  split; [exact Hf2|].
  destruct (exec (cv_AlignMTB_process a v [])) as [e|out] eqn:He2.
  - rewrite (run_raised_exact _ cb2 {| st_heap := h'; st_trace := _ |} _ e Hf2 He2).
    eexists _, _. split; [reflexivity|]. unfold outputs. rewrite since_log.
    reflexivity.
  - rewrite (run_returned_exact _ cb2 {| st_heap := h'; st_trace := _ |}
               (req (cv_AlignMTB_process a v [])) out Hf2 eq_refl He2).
    eexists _, _. split; [reflexivity|].
    apply (outputs_exact {| st_heap := h'; st_trace := _ |}).
Qed.

Lemma AlignMTB_Create_then_Process_witness :
  let a := {| max_bits := 5; exclude_range := 3; cut := false |} in
  let v := [gray 2 10; gray 2 20; gray 2 30] in
  exists st1 s1 r p,
    @run toy (AlignMTB_CreateWithParams 5 3 false) cb_quiet state0
      = Returned st1 s1 /\
    delivered state0 s1 = [r] /\
    load (st_heap s1) r = Some (O_Handle K_AlignMTB p) /\
    @forwarded toy (AlignMTB_Process {| ptr := p |} h_seq) (st_heap s1)
      = Some (req (cv_AlignMTB_process a v [])) /\
    exists st2 s2,
      @run toy (AlignMTB_Process {| ptr := p |} h_seq) cb_quiet s1
        = Returned st2 s2 /\
      outputs s1 s2 =
        match @exec toy _ (cv_AlignMTB_process a v []) with
        | inl _ => []
        | inr out => [O_vecMat (fst out)]
        end.
Proof.
  apply (@AlignMTB_Create_then_Process toy (AlignMTB_CreateWithParams 5 3 false)
           5 3 false h_seq cb_quiet cb_quiet state0).
  - left. reflexivity.
  - reflexivity.
  - reflexivity.
  - intros args h a o Ha. exact Ha.
Defined.
